(** * The custom feature source of node-feature-discovery

    A shallow embedding of [source/custom/custom.go]: the rule-set matcher
    (the [matchRules] closure), the per-specification evaluator
    ([Source.discoverFeature]) and the aggregator ([Source.Discover]),
    together with the properties of the evaluation engine.

    The concrete rules live in the package [rules], outside this file's
    scope; the engine only calls their [Match()] method.  They are taken as
    parameters: one opaque type per rule variant with its [Match]. The host
    that the rules inspect is a state [World] threaded through every call. *)

From stdpp Require Import gmap strings list.

Set Default Proof Using "Type".

(** A Go value of type [interface{}] as stored in [source.Features]:
    the engine only ever stores [true] or a string. *)
Inductive iface : Type :=
| IBool (b : bool)
| IString (s : string).

(** How a Go call ends: with its results, or in a run-time panic. *)
Inductive outcome (A : Type) : Type :=
| Returned (a : A)
| Panicked.
Arguments Returned {A} a.
Arguments Panicked {A}.

Section custom.

(** The host state inspected by the rules, and Go's [error] values. *)
Context {World error : Type}.

(** [rules.Rule]: the one capability the engine uses. [Match()] returns the
    Go pair [(bool, error)]; a [nil] error is [None]. *)
Class Rule (R : Type) : Type :=
  Match : R -> World -> (bool * option error) * World.

Context {PciIDRule UsbIDRule LoadedKModRule CpuIDRule KconfigRule NodenameRule : Type}.
Context `{!Rule PciIDRule, !Rule UsbIDRule, !Rule LoadedKModRule,
          !Rule CpuIDRule, !Rule KconfigRule, !Rule NodenameRule}.

(** ** Data model *)

(** [MatchRule]: six optional slots, a [nil] pointer is [None]. *)
Record MatchRule : Type := {
  PciID : option PciIDRule;
  UsbID : option UsbIDRule;
  LoadedKMod : option LoadedKModRule;
  CpuID : option CpuIDRule;
  Kconfig : option KconfigRule;
  Nodename : option NodenameRule
}.

Record FeatureSpec : Type := {
  Name : string;
  Value : option string;
  MatchOn : list MatchRule
}.

(** [type config []FeatureSpec]; [Source] holds a pointer to it, which is
    [nil] until [SetConfig] has been called. *)
Record Source : Type := { config : option (list FeatureSpec) }.

(** A non-nil value of interface type [rules.Rule]: the dynamic type and the
    rule it points to. *)
Inductive AnyRule : Type :=
| RPciID (r : PciIDRule)
| RUsbID (r : UsbIDRule)
| RLoadedKMod (r : LoadedKModRule)
| RCpuID (r : CpuIDRule)
| RKconfig (r : KconfigRule)
| RNodename (r : NodenameRule).

(** Dynamic dispatch of [rule.Match()]. *)
Definition rule_Match (rule : AnyRule) : World -> (bool * option error) * World :=
  match rule with
  | RPciID r => Match r
  | RUsbID r => Match r
  | RLoadedKMod r => Match r
  | RCpuID r => Match r
  | RKconfig r => Match r
  | RNodename r => Match r
  end.

(** ** Effects

    What a run does besides returning: the calls it makes to the rules,
    with what they returned, the evaluator calls made by [Discover], and the
    lines written through [klog]. *)
Inductive Event : Type :=
| EvMatch (rule : AnyRule) (res : bool * option error)
| EvDiscoverFeature (feature : FeatureSpec) (res : bool * option error)
| EvKlogDump (cfg : list FeatureSpec)
| EvKlogErrorf (name : string) (err : error).

(** A computation reads and updates the host state and emits events. *)
Definition M (A : Type) : Type := World -> A * World * list Event.

Definition ret {A : Type} (a : A) : M A := fun w => (a, w, []).

Definition bind {A B : Type} (c : M A) (k : A -> M B) : M B :=
  fun w =>
    let '(a, w1, t1) := c w in
    let '(b, w2, t2) := k a w1 in
    (b, w2, t1 ++ t2).

Definition emit (e : Event) : M unit := fun w => (tt, w, [e]).

Notation "'let*' p := c 'in' k" := (bind c (fun p => k))
  (at level 10, p pattern, c at level 100, k at level 200).

(** [rule.Match()], observed. *)
Definition call_Match (rule : AnyRule) : M (bool * option error) :=
  fun w => let '(res, w1) := rule_Match rule w in (res, w1, [EvMatch rule res]).

(** ** [discoverFeature] *)

(** The slice [allRules] built at the top of the loop body. An interface
    value that wraps a nil pointer (the one [reflect.ValueOf(rule).IsNil()]
    detects) is [None]. *)
Definition allRules (matchRules : MatchRule) : list (option AnyRule) :=
  [ RPciID <$> PciID matchRules;
    RUsbID <$> UsbID matchRules;
    RLoadedKMod <$> LoadedKMod matchRules;
    RCpuID <$> CpuID matchRules;
    RKconfig <$> Kconfig matchRules;
    RNodename <$> Nodename matchRules ].

(** The closure [matchRules]: [true, nil] if all rules match. *)
Fixpoint matchRules (rules : list (option AnyRule)) : M (bool * option error) :=
  match rules with
  | [] => ret (true, None)
  | None :: rules' => matchRules rules'
  | Some rule :: rules' =>
      let* (match_, err) := call_Match rule in
      match err with
      | Some e => ret (false, Some e)
      | None => if negb match_ then ret (false, None) else matchRules rules'
      end
  end.

(** The loop [for _, matchRules := range feature.MatchOn] with the final
    [return false, nil]. *)
Fixpoint discoverFeature_loop (matchOn : list MatchRule) : M (bool * option error) :=
  match matchOn with
  | [] => ret (false, None)
  | rs :: matchOn' =>
      let* (match_, err) := matchRules (allRules rs) in
      match err with
      | Some e => ret (false, Some e)
      | None => if match_ then ret (true, None) else discoverFeature_loop matchOn'
      end
  end.

Definition discoverFeature (feature : FeatureSpec) : M (bool * option error) :=
  discoverFeature_loop (MatchOn feature).

(** ** [Discover] *)

(** The two configuration sources that are read by helpers defined elsewhere
    in the package: the built-in list and the list parsed from the
    configuration directory of the host. *)
Context (getStaticFeatureConfig : list FeatureSpec).
Context (getDirectoryFeatureConfig : World -> list FeatureSpec).

(** [s.discoverFeature(customFeature)], observed. *)
Definition call_discoverFeature (feature : FeatureSpec) : M (bool * option error) :=
  let* res := discoverFeature feature in
  let* _ := emit (EvDiscoverFeature feature res) in
  ret res.

(** The loop [for _, customFeature := range allFeatureConfig]. *)
Fixpoint Discover_loop (allFeatureConfig : list FeatureSpec)
    (features : gmap string iface) : M (gmap string iface) :=
  match allFeatureConfig with
  | [] => ret features
  | customFeature :: rest =>
      let* (featureExist, err) := call_discoverFeature customFeature in
      match err with
      | Some e =>
          let* _ := emit (EvKlogErrorf (Name customFeature) e) in
          Discover_loop rest features
      | None =>
          if featureExist then
            let value :=
              match Value customFeature with
              | Some v => IString v
              | None => IBool true
              end in
            Discover_loop rest (<[Name customFeature := value]> features)
          else Discover_loop rest features
      end
  end.

Definition Discover (s : Source) : M (outcome (gmap string iface * option error)) :=
  let features : gmap string iface := ∅ in
  match config s with
  | None => ret Panicked
  | Some cfg =>
      fun w =>
        let allFeatureConfig := getStaticFeatureConfig ++ cfg in
        let allFeatureConfig := allFeatureConfig ++ getDirectoryFeatureConfig w in
        (let* _ := emit (EvKlogDump allFeatureConfig) in
         let* features := Discover_loop allFeatureConfig features in
         ret (Returned (features, None))) w
  end.

(** ** Reference semantics of a rule-set

    The conjunction as the specification words it: every present slot is
    evaluated, in the slice's order, without stopping early. *)
Fixpoint evaluateAll (rules : list (option AnyRule)) (w : World)
    : list (bool * option error) :=
  match rules with
  | [] => []
  | None :: rules' => evaluateAll rules' w
  | Some rule :: rules' =>
      let '(res, w1) := rule_Match rule w in res :: evaluateAll rules' w1
  end.

(** The alternation as the specification words it: the outcome of every
    rule-set of [matchOn], each evaluated in turn. *)
Fixpoint evaluateRuleSets (matchOn : list MatchRule) (w : World)
    : list (bool * option error) :=
  match matchOn with
  | [] => []
  | rs :: matchOn' =>
      let '(res, w1, _) := matchRules (allRules rs) w in
      res :: evaluateRuleSets matchOn' w1
  end.

(** A call to a rule that came back with a non-nil error. *)
Definition is_error (ev : Event) : Prop :=
  match ev with
  | EvMatch _ (_, Some _) => True
  | _ => False
  end.

(** A call to [rule] that reported a match and no error. *)
Definition matched (rule : AnyRule) : Event := EvMatch rule (true, None).

(** The specifications whose evaluation a trace records, in order. *)
Definition evaluated (evs : list Event) : list FeatureSpec :=
  omap (fun ev => match ev with EvDiscoverFeature f _ => Some f | _ => None end) evs.

(** A trace records that a specification called [name] was found present. *)
Definition found (name : string) (ev : Event) : Prop :=
  match ev with
  | EvDiscoverFeature f (true, None) => Name f = name
  | _ => False
  end.

(** The last specification called [name] that a trace records as found. *)
Fixpoint last_found (name : string) (evs : list Event) : option FeatureSpec :=
  match evs with
  | [] => None
  | ev :: evs' =>
      match last_found name evs' with
      | Some f => Some f
      | None =>
          match ev with
          | EvDiscoverFeature f (true, None) =>
              if decide (Name f = name) then Some f else None
          | _ => None
          end
      end
  end.

(** The value [Discover] stores for a specification that was found. *)
Definition value_of (f : FeatureSpec) : iface :=
  match Value f with
  | Some v => IString v
  | None => IBool true
  end.

(** A call to a rule. *)
Definition is_call (ev : Event) : Prop :=
  match ev with
  | EvMatch _ _ => True
  | _ => False
  end.

(** ** Unfolding the closure [matchRules] *)

Lemma matchRules_nil w : matchRules [] w = ((true, None), w, []).
Proof. reflexivity. Qed.

Lemma matchRules_skip rules w : matchRules (None :: rules) w = matchRules rules w.
Proof. reflexivity. Qed.

Lemma matchRules_err rule rules w b e w1 :
  rule_Match rule w = ((b, Some e), w1) ->
  matchRules (Some rule :: rules) w = ((false, Some e), w1, [EvMatch rule (b, Some e)]).
Proof. intros E. simpl. unfold bind, call_Match. rewrite E. reflexivity. Qed.

Lemma matchRules_false rule rules w w1 :
  rule_Match rule w = ((false, None), w1) ->
  matchRules (Some rule :: rules) w = ((false, None), w1, [EvMatch rule (false, None)]).
Proof. intros E. simpl. unfold bind, call_Match. rewrite E. reflexivity. Qed.

Lemma matchRules_true rule rules w w1 :
  rule_Match rule w = ((true, None), w1) ->
  matchRules (Some rule :: rules) w =
    let '(res, w2, t) := matchRules rules w1 in (res, w2, matched rule :: t).
Proof.
  intros E. simpl. unfold bind, call_Match. rewrite E. simpl.
  destruct (matchRules rules w1) as [[res w2] t]. reflexivity.
Qed.

(** Case analysis on what the first present rule returns. *)
Lemma rule_Match_cases rule w :
  (exists w1, rule_Match rule w = ((true, None), w1))
  \/ (exists w1, rule_Match rule w = ((false, None), w1))
  \/ (exists b e w1, rule_Match rule w = ((b, Some e), w1)).
Proof.
  destruct (rule_Match rule w) as [[[] [e|]] w1]; eauto 10.
Qed.

(** The present rules of a slice, in the slice's order. *)
Lemma present_Some (rule : AnyRule) rules : omap id (Some rule :: rules) = rule :: omap id rules.
Proof. reflexivity. Qed.

Lemma present_None (rules : list (option AnyRule)) : omap id (None :: rules) = omap id rules.
Proof. reflexivity. Qed.

(** The trace of one rule-set: either every present rule was called and
    matched, or the calls stop at the first rule that did not. *)
Lemma matchRules_trace rules w res w1 evs :
  matchRules rules w = (res, w1, evs) ->
  (res = (true, None) /\ evs = matched <$> omap id rules)
  \/ (exists pre rule post x,
        omap id rules = pre ++ rule :: post /\
        evs = (matched <$> pre) ++ [EvMatch rule x] /\
        ((x = (false, None) /\ res = (false, None))
         \/ (exists e, x.2 = Some e /\ res = (false, Some e)))).
Proof.
  revert w res w1 evs.
  induction rules as [|[rule|] rules IH]; intros w res w1 evs E.
  - rewrite matchRules_nil in E. inversion E; subst. left. split; reflexivity.
  - destruct (rule_Match_cases rule w) as [[w2 Hm]|[[w2 Hm]|(b & e & w2 & Hm)]].
    + rewrite (matchRules_true _ _ _ _ Hm) in E.
      destruct (matchRules rules w2) as [[res' w3] t] eqn:E'.
      inversion E; subst; clear E.
      destruct (IH _ _ _ _ E') as [[-> ->]|(pre & r & post & x & Hs & -> & Hx)].
      * left. split; reflexivity.
      * right. exists (rule :: pre), r, post, x. rewrite present_Some, Hs.
        split; [reflexivity|]. split; [reflexivity|]. exact Hx.
    + rewrite (matchRules_false _ _ _ _ Hm) in E. inversion E; subst; clear E.
      right. exists [], rule, (omap id rules), (false, None).
      split; [reflexivity|]. split; [reflexivity|]. left. split; reflexivity.
    + rewrite (matchRules_err _ _ _ _ _ _ Hm) in E. inversion E; subst; clear E.
      right. exists [], rule, (omap id rules), (b, Some e).
      split; [reflexivity|]. split; [reflexivity|]. right. exists e. split; reflexivity.
  - rewrite matchRules_skip in E. rewrite present_None. apply (IH _ _ _ _ E).
Qed.

(** [matched] calls are not errors. *)
Lemma matched_no_error (rules : list AnyRule) : Forall (fun ev => ~ is_error ev) (matched <$> rules).
Proof. induction rules; simpl; constructor; auto. Qed.

(** A rule-set that returns a nil error made no call that failed. *)
Lemma matchRules_ok_no_error rules w b w1 evs :
  matchRules rules w = ((b, None), w1, evs) -> Forall (fun ev => ~ is_error ev) evs.
Proof.
  intros E. destruct (matchRules_trace _ _ _ _ _ E) as [[_ ->]|(pre & r & post & x & _ & -> & Hx)].
  - apply matched_no_error.
  - apply Forall_app. split; [apply matched_no_error|].
    constructor; [|constructor].
    destruct Hx as [[-> _]|(e & _ & ?)]; [simpl; intros [] | discriminate].
Qed.

(** A rule-set that returns an error reports no match, and the failed call
    is the last thing it did. *)
Lemma matchRules_error_last rules w b e w1 evs :
  matchRules rules w = ((b, Some e), w1, evs) ->
  b = false /\
  exists t rule m, evs = t ++ [EvMatch rule (m, Some e)]
    /\ Forall (fun ev => ~ is_error ev) t
    /\ In (Some rule) rules.
Proof.
  intros E. destruct (matchRules_trace _ _ _ _ _ E) as [[? _]|(pre & r & post & x & Hs & -> & Hx)];
    [discriminate|].
  destruct Hx as [[_ ?]|(e' & Hx & He)]; [discriminate|].
  inversion He; subst. split; [reflexivity|].
  destruct x as [m o]; simpl in Hx; subst o.
  exists (matched <$> pre), r, m. split; [reflexivity|].
  split; [apply matched_no_error|].
  apply list_elem_of_In.
  assert (Hin : r ∈ omap id rules).
  { rewrite Hs. apply elem_of_app. right. apply list_elem_of_here. }
  apply list_elem_of_omap in Hin as (o & Ho & Hid).
  destruct o; simpl in Hid; [|discriminate]. injection Hid as ->. exact Ho.
Qed.

(** The short-circuit evaluation agrees with the reference semantics. *)
Lemma matchRules_evaluateAll rules w :
  Forall (fun res => res.2 = None) (evaluateAll rules w) ->
  (matchRules rules w).1.1 = (forallb fst (evaluateAll rules w), None).
Proof.
  revert w. induction rules as [|[rule|] rules IH]; intros w Hall; simpl in Hall.
  - reflexivity.
  - destruct (rule_Match rule w) as [res w2] eqn:Hm.
    apply Forall_cons in Hall as [Hres Hall].
    destruct res as [[] o]; simpl in Hres; subst o.
    + rewrite (matchRules_true _ _ _ _ Hm). specialize (IH _ Hall).
      destruct (matchRules rules w2) as [[res' w3] t]. simpl in *. rewrite Hm. simpl. exact IH.
    + rewrite (matchRules_false _ _ _ _ Hm). simpl. rewrite Hm. reflexivity.
  - rewrite matchRules_skip. simpl. apply IH, Hall.
Qed.

(** ** Unfolding the loop of [discoverFeature] *)

Lemma loop_nil w : discoverFeature_loop [] w = ((false, None), w, []).
Proof. reflexivity. Qed.

Lemma loop_error rs matchOn w b e w1 t1 :
  matchRules (allRules rs) w = ((b, Some e), w1, t1) ->
  discoverFeature_loop (rs :: matchOn) w = ((false, Some e), w1, t1).
Proof.
  intros E. cbn [discoverFeature_loop]. unfold bind. rewrite E.
  cbn. rewrite app_nil_r. reflexivity.
Qed.

Lemma loop_match rs matchOn w w1 t1 :
  matchRules (allRules rs) w = ((true, None), w1, t1) ->
  discoverFeature_loop (rs :: matchOn) w = ((true, None), w1, t1).
Proof.
  intros E. cbn [discoverFeature_loop]. unfold bind. rewrite E.
  cbn. rewrite app_nil_r. reflexivity.
Qed.

Lemma loop_next rs matchOn w w1 t1 :
  matchRules (allRules rs) w = ((false, None), w1, t1) ->
  discoverFeature_loop (rs :: matchOn) w =
    let '(res, w2, t2) := discoverFeature_loop matchOn w1 in (res, w2, t1 ++ t2).
Proof.
  intros E. cbn [discoverFeature_loop]. unfold bind. rewrite E. reflexivity.
Qed.

(** What one rule-set can return. *)
Lemma matchRules_cases rules w :
  (exists w1 t, matchRules rules w = ((true, None), w1, t))
  \/ (exists w1 t, matchRules rules w = ((false, None), w1, t))
  \/ (exists e w1 t, matchRules rules w = ((false, Some e), w1, t)).
Proof.
  destruct (matchRules rules w) as [[[b [e|]] w1] t] eqn:E.
  - destruct (matchRules_error_last _ _ _ _ _ _ E) as [-> _]. eauto 10.
  - destruct b; eauto 10.
Qed.

(** Alternatives that all fail without error are passed over. *)
Lemma loop_app pre matchOn w w1 t1 :
  discoverFeature_loop pre w = ((false, None), w1, t1) ->
  discoverFeature_loop (pre ++ matchOn) w =
    let '(res, w2, t2) := discoverFeature_loop matchOn w1 in (res, w2, t1 ++ t2).
Proof.
  revert w w1 t1. induction pre as [|rs pre IH]; intros w w1 t1 E.
  - rewrite loop_nil in E. inversion E; subst.
    simpl app. destruct (discoverFeature_loop matchOn w1) as [[res w2] t2]. reflexivity.
  - rewrite <- app_comm_cons.
    destruct (matchRules_cases (allRules rs) w)
      as [(w2 & t & Hm)|[(w2 & t & Hm)|(e & w2 & t & Hm)]].
    + rewrite (loop_match _ _ _ _ _ Hm) in E. discriminate.
    + rewrite (loop_next _ _ _ _ _ Hm) in E. rewrite (loop_next _ _ _ _ _ Hm).
      destruct (discoverFeature_loop pre w2) as [[res' w3] t3] eqn:E'.
      inversion E; subst; clear E.
      rewrite (IH _ _ _ E').
      destruct (discoverFeature_loop matchOn w1) as [[res w4] t4].
      rewrite app_assoc. reflexivity.
    + rewrite (loop_error _ _ _ _ _ _ _ Hm) in E. discriminate.
Qed.

(** A run that does not end in [false, nil] was decided by one rule-set:
    the ones before it failed without error, the ones after it play no part. *)
Lemma loop_decided matchOn w res w' evs :
  discoverFeature_loop matchOn w = (res, w', evs) ->
  res <> (false, None) ->
  exists pre rs post w1 t1 t2 res',
    matchOn = pre ++ rs :: post
    /\ discoverFeature_loop pre w = ((false, None), w1, t1)
    /\ matchRules (allRules rs) w1 = (res', w', t2)
    /\ evs = t1 ++ t2
    /\ ((res' = (true, None) /\ res = (true, None))
        \/ (exists e, res' = (false, Some e) /\ res = (false, Some e))).
Proof.
  revert w res w' evs. induction matchOn as [|rs matchOn IH]; intros w res w' evs E Hres.
  - rewrite loop_nil in E. inversion E; subst. contradiction.
  - destruct (matchRules_cases (allRules rs) w)
      as [(w2 & t & Hm)|[(w2 & t & Hm)|(e & w2 & t & Hm)]].
    + rewrite (loop_match _ _ _ _ _ Hm) in E. inversion E; subst; clear E.
      exists [], rs, matchOn, w, [], evs, (true, None).
      repeat split; auto.
    + rewrite (loop_next _ _ _ _ _ Hm) in E.
      destruct (discoverFeature_loop matchOn w2) as [[res1 w3] t3] eqn:E'.
      inversion E; subst; clear E.
      destruct (IH _ _ _ _ E' Hres)
        as (pre & rs' & post & w1 & t1 & t2 & res' & -> & Hpre & Hrs & -> & Hcase).
      exists (rs :: pre), rs', post, w1, (t ++ t1), t2, res'.
      split; [reflexivity|]. split.
      { rewrite (loop_next _ _ _ _ _ Hm), Hpre. reflexivity. }
      split; [exact Hrs|]. split; [apply app_assoc|exact Hcase].
    + rewrite (loop_error _ _ _ _ _ _ _ Hm) in E. inversion E; subst; clear E.
      exists [], rs, matchOn, w, [], evs, (false, Some e).
      repeat split; eauto.
Qed.

(** A run that ends with a nil error made no call that failed. *)
Lemma loop_ok_no_error matchOn w b w' evs :
  discoverFeature_loop matchOn w = ((b, None), w', evs) ->
  Forall (fun ev => ~ is_error ev) evs.
Proof.
  revert w b w' evs. induction matchOn as [|rs matchOn IH]; intros w b w' evs E.
  - rewrite loop_nil in E. inversion E; subst. constructor.
  - destruct (matchRules_cases (allRules rs) w)
      as [(w2 & t & Hm)|[(w2 & t & Hm)|(e & w2 & t & Hm)]].
    + rewrite (loop_match _ _ _ _ _ Hm) in E. inversion E; subst; clear E.
      apply (matchRules_ok_no_error _ _ _ _ _ Hm).
    + rewrite (loop_next _ _ _ _ _ Hm) in E.
      destruct (discoverFeature_loop matchOn w2) as [[res1 w3] t3] eqn:E'.
      inversion E; subst; clear E.
      apply Forall_app. split.
      * apply (matchRules_ok_no_error _ _ _ _ _ Hm).
      * apply (IH _ _ _ _ E').
    + rewrite (loop_error _ _ _ _ _ _ _ Hm) in E. discriminate.
Qed.

(** What the evaluator can return, with the state and trace it leaves. *)
Lemma discoverFeature_cases feature w :
  (exists w1 t, discoverFeature feature w = ((true, None), w1, t))
  \/ (exists w1 t, discoverFeature feature w = ((false, None), w1, t))
  \/ (exists e w1 t, discoverFeature feature w = ((false, Some e), w1, t)).
Proof.
  unfold discoverFeature.
  destruct (discoverFeature_loop (MatchOn feature) w) as [[[b [e|]] w1] t] eqn:E.
  - assert (Hne : (b, Some e) <> (false, None)) by discriminate.
    destruct (loop_decided _ _ _ _ _ E Hne)
      as (_ & _ & _ & _ & _ & _ & res' & _ & _ & _ & _ & [[_ ?]|(e' & _ & Hres)]);
      [discriminate|].
    rewrite Hres. eauto 10.
  - destruct b; eauto 10.
Qed.

(** ** Properties of the rule evaluator *)

(** C3 (AND within a rule-set). Take the six slots of a rule-set, PciID,
    UsbID, LoadedKMod, CpuID, Kconfig and Nodename. When none of those
    present fails, the rule-set returns a nil error and matches exactly when
    every one of those present reports a match, so one slot that does not
    match makes the set fail; a rule-set whose six slots are all absent
    matches, calling nothing. *)
Theorem matchRules_conjunction rs w :
  let slots :=
    [ RPciID <$> PciID rs; RUsbID <$> UsbID rs; RLoadedKMod <$> LoadedKMod rs;
      RCpuID <$> CpuID rs; RKconfig <$> Kconfig rs; RNodename <$> Nodename rs ] in
  (Forall (fun res => res.2 = None) (evaluateAll slots w) ->
   exists m, (matchRules (allRules rs) w).1.1 = (m, None)
     /\ (m = true <-> Forall (fun res => res.1 = true) (evaluateAll slots w)))
  /\ matchRules (allRules {| PciID := None; UsbID := None; LoadedKMod := None;
                             CpuID := None; Kconfig := None; Nodename := None |}) w
     = ((true, None), w, []).
Proof.
  intros slots. split; [|reflexivity].
  intros Hall. exists (forallb fst (evaluateAll slots w)).
  split; [apply (matchRules_evaluateAll (allRules rs) w), Hall|].
  rewrite forallb_forall, Forall_forall. split; intros H x Hx.
  - apply list_elem_of_In in Hx. apply H in Hx. exact Hx.
  - apply list_elem_of_In in Hx. apply H in Hx. exact Hx.
Qed.

(** C5 (return contract). The evaluator returns [true] with a nil error,
    [false] with a nil error, or [false] with an error; never [true]
    together with an error, whatever the rules themselves return. *)
Theorem discoverFeature_return_contract feature w :
  let res := (discoverFeature feature w).1.1 in
  (res = (true, None) \/ res = (false, None) \/ exists e, res = (false, Some e))
  /\ forall e, res <> (true, Some e).
Proof.
  destruct (discoverFeature_cases feature w)
    as [(w1 & t & E)|[(w1 & t & E)|(e & w1 & t & E)]]; rewrite E; simpl.
  - split; [left; reflexivity|discriminate].
  - split; [right; left; reflexivity|discriminate].
  - split; [right; right; exists e; reflexivity|discriminate].
Qed.

(** C4 (first match wins). When the rule-sets before [rs] have failed
    without error and [rs] matches, the evaluator returns [true, nil] at
    once: the result, the host state and the calls made are those of the
    run up to [rs], whatever rule-sets [post] follow. *)
Theorem discoverFeature_first_match name value pre rs post w w1 t1 w2 t2 :
  discoverFeature_loop pre w = ((false, None), w1, t1) ->
  matchRules (allRules rs) w1 = ((true, None), w2, t2) ->
  discoverFeature {| Name := name; Value := value; MatchOn := pre ++ rs :: post |} w
  = ((true, None), w2, t1 ++ t2).
Proof.
  intros Hpre Hrs. unfold discoverFeature. cbn [MatchOn].
  rewrite (loop_app _ _ _ _ _ Hpre), (loop_match _ _ _ _ _ Hrs). reflexivity.
Qed.

(** C9 (exhausted alternatives). When every rule-set of [matchOn] fails
    without error, the evaluator returns [false, nil]; with an empty
    [matchOn] it does so without calling anything. *)
Theorem discoverFeature_exhausted feature w :
  (Forall (fun res => res = (false, None)) (evaluateRuleSets (MatchOn feature) w) ->
   (discoverFeature feature w).1.1 = (false, None))
  /\ (MatchOn feature = [] -> discoverFeature feature w = ((false, None), w, [])).
Proof.
  unfold discoverFeature. split; [|intros ->; reflexivity].
  generalize (MatchOn feature) as matchOn. intros matchOn. revert w.
  induction matchOn as [|rs matchOn IH]; intros w Hall; [reflexivity|].
  cbn [evaluateRuleSets] in Hall.
  destruct (matchRules (allRules rs) w) as [[res w1] t1] eqn:Hm.
  apply Forall_cons in Hall as [-> Hall].
  rewrite (loop_next _ _ _ _ _ Hm). specialize (IH _ Hall).
  destruct (discoverFeature_loop matchOn w1) as [[res2 w2] t2]. exact IH.
Qed.

(** C1 (fail fast). If, while a specification is evaluated, a call to a
    rule returns an error [e], the evaluator returns [false] with [e]; the
    failed call is the last thing it does; and the rule-sets [post] after
    the one holding that rule play no part: replacing them by any others
    leaves the result, the host state and the calls made unchanged. *)
Theorem discoverFeature_fail_fast feature w res w' evs rule m e :
  discoverFeature feature w = (res, w', evs) ->
  In (EvMatch rule (m, Some e)) evs ->
  res = (false, Some e)
  /\ exists pre rs post t,
       MatchOn feature = pre ++ rs :: post
       /\ In (Some rule) (allRules rs)
       /\ evs = t ++ [EvMatch rule (m, Some e)]
       /\ forall name value post',
            discoverFeature
              {| Name := name; Value := value; MatchOn := pre ++ rs :: post' |} w
            = ((false, Some e), w', evs).
Proof.
  unfold discoverFeature. intros E Hin.
  destruct res as [b [e'|]].
  - assert (Hne : (b, Some e') <> (false, None)) by discriminate.
    destruct (loop_decided _ _ _ _ _ E Hne)
      as (pre & rs & post & w1 & t1 & t2 & res' & HmatchOn & Hpre & Hrs & -> & Hcase).
    destruct Hcase as [[_ ?]|(e0 & -> & Hres)]; [discriminate|].
    inversion Hres; subst b e0; clear Hres.
    destruct (matchRules_error_last _ _ _ _ _ _ Hrs) as (_ & t & r0 & m0 & -> & Ht & Hslot).
    pose proof (loop_ok_no_error _ _ _ _ _ Hpre) as Ht1.
    assert (Hlast : EvMatch rule (m, Some e) = EvMatch r0 (m0, Some e')).
    { apply in_app_or in Hin as [Hin|Hin].
      - rewrite Forall_forall in Ht1. apply list_elem_of_In, Ht1 in Hin. destruct Hin. exact I.
      - apply in_app_or in Hin as [Hin|Hin].
        + rewrite Forall_forall in Ht. apply list_elem_of_In, Ht in Hin. destruct Hin. exact I.
        + destruct Hin as [Heq|[]]. symmetry. exact Heq. }
    inversion Hlast; subst r0 m0 e'; clear Hlast.
    split; [reflexivity|].
    exists pre, rs, post, (t1 ++ t).
    split; [exact HmatchOn|]. split; [exact Hslot|].
    split; [apply app_assoc|].
    intros name value post'. cbn [MatchOn].
    rewrite (loop_app _ _ _ _ _ Hpre), (loop_error _ _ _ _ _ _ _ Hrs). reflexivity.
  - pose proof (loop_ok_no_error _ _ _ _ _ E) as Hok.
    rewrite Forall_forall in Hok. apply list_elem_of_In, Hok in Hin. destruct Hin. exact I.
Qed.


(** ** Traces *)

Lemma matchRules_calls rules w :
  Forall is_call (matchRules rules w).2.
Proof.
  destruct (matchRules rules w) as [[res w1] evs] eqn:E. simpl.
  assert (Hm : forall l : list AnyRule, Forall is_call (matched <$> l)).
  { induction l; simpl; constructor; auto. exact I. }
  destruct (matchRules_trace _ _ _ _ _ E) as [[_ ->]|(pre & r & post & x & _ & -> & _)].
  - apply Hm.
  - apply Forall_app. split; [apply Hm|]. constructor; [exact I|constructor].
Qed.

(** The evaluator does nothing but call rules. *)
Lemma discoverFeature_calls feature w :
  Forall is_call (discoverFeature feature w).2.
Proof.
  unfold discoverFeature. generalize (MatchOn feature) as matchOn. intros matchOn.
  revert w. induction matchOn as [|rs matchOn IH]; intros w; [constructor|].
  pose proof (matchRules_calls (allRules rs) w) as Hc.
  destruct (matchRules_cases (allRules rs) w)
    as [(w2 & t & Hm)|[(w2 & t & Hm)|(e & w2 & t & Hm)]]; rewrite Hm in Hc; simpl in Hc.
  - rewrite (loop_match _ _ _ _ _ Hm). exact Hc.
  - rewrite (loop_next _ _ _ _ _ Hm). specialize (IH w2).
    destruct (discoverFeature_loop matchOn w2) as [[res w3] t3]. simpl in *.
    apply Forall_app. split; assumption.
  - rewrite (loop_error _ _ _ _ _ _ _ Hm). exact Hc.
Qed.

Lemma evaluated_app t1 t2 : evaluated (t1 ++ t2) = evaluated t1 ++ evaluated t2.
Proof. apply omap_app. Qed.

Lemma evaluated_calls t : Forall is_call t -> evaluated t = [].
Proof.
  induction 1 as [|ev t Hev _ IH]; [reflexivity|].
  destruct ev; try destruct Hev. exact IH.
Qed.

Lemma last_found_app name t1 t2 :
  last_found name (t1 ++ t2) =
    match last_found name t2 with
    | Some f => Some f
    | None => last_found name t1
    end.
Proof.
  induction t1 as [|ev t1 IH]; simpl.
  - destruct (last_found name t2); reflexivity.
  - rewrite IH. destruct (last_found name t2); reflexivity.
Qed.

Lemma last_found_calls name t : Forall is_call t -> last_found name t = None.
Proof.
  induction 1 as [|ev t Hev _ IH]; [reflexivity|].
  simpl. rewrite IH. destruct ev; try destruct Hev. reflexivity.
Qed.

Lemma last_found_none name t :
  Forall (fun ev => ~ found name ev) t -> last_found name t = None.
Proof.
  induction 1 as [|ev t Hev _ IH]; [reflexivity|].
  simpl. rewrite IH. destruct ev as [| f [[] [e|]] | |]; try reflexivity.
  destruct (decide (Name f = name)) as [Heq|]; [|reflexivity].
  exfalso. apply Hev. exact Heq.
Qed.

Lemma last_found_here name t1 f t2 :
  Name f = name ->
  Forall (fun ev => ~ found name ev) t2 ->
  last_found name (t1 ++ EvDiscoverFeature f (true, None) :: t2) = Some f.
Proof.
  intros Hn Ht2. rewrite last_found_app. simpl.
  rewrite (last_found_none _ _ Ht2).
  destruct (decide (Name f = name)); [reflexivity|contradiction].
Qed.

(** ** Unfolding the loop of [Discover] *)

Lemma Discover_loop_nil features w : Discover_loop [] features w = (features, w, []).
Proof. reflexivity. Qed.

Lemma Discover_loop_error S rest features w b e w1 t :
  discoverFeature S w = ((b, Some e), w1, t) ->
  Discover_loop (S :: rest) features w =
    let '(fs, w2, t2) := Discover_loop rest features w1 in
    (fs, w2, t ++ EvDiscoverFeature S (b, Some e) :: EvKlogErrorf (Name S) e :: t2).
Proof.
  intros E. cbn [Discover_loop]. unfold bind, call_discoverFeature, bind, emit, ret.
  rewrite E. destruct (Discover_loop rest features w1) as [[fs w2] t2].
  cbn. rewrite <- app_assoc. reflexivity.
Qed.

Lemma Discover_loop_found S rest features w w1 t :
  discoverFeature S w = ((true, None), w1, t) ->
  Discover_loop (S :: rest) features w =
    let '(fs, w2, t2) := Discover_loop rest (<[Name S := value_of S]> features) w1 in
    (fs, w2, t ++ EvDiscoverFeature S (true, None) :: t2).
Proof.
  intros E. cbn [Discover_loop]. unfold bind, call_discoverFeature, bind, emit, ret.
  rewrite E. fold (value_of S).
  destruct (Discover_loop rest (<[Name S := value_of S]> features) w1) as [[fs w2] t2].
  cbn. rewrite <- app_assoc. reflexivity.
Qed.

Lemma Discover_loop_absent S rest features w w1 t :
  discoverFeature S w = ((false, None), w1, t) ->
  Discover_loop (S :: rest) features w =
    let '(fs, w2, t2) := Discover_loop rest features w1 in
    (fs, w2, t ++ EvDiscoverFeature S (false, None) :: t2).
Proof.
  intros E. cbn [Discover_loop]. unfold bind, call_discoverFeature, bind, emit, ret.
  rewrite E. destruct (Discover_loop rest features w1) as [[fs w2] t2].
  cbn. rewrite <- app_assoc. reflexivity.
Qed.

(** The loop over a concatenation is the loop over its parts, in sequence. *)
Lemma Discover_loop_app l1 l2 features w :
  Discover_loop (l1 ++ l2) features w =
    let '(f1, w1, t1) := Discover_loop l1 features w in
    let '(f2, w2, t2) := Discover_loop l2 f1 w1 in
    (f2, w2, t1 ++ t2).
Proof.
  revert features w. induction l1 as [|S l1 IH]; intros features w.
  - rewrite Discover_loop_nil. simpl app.
    destruct (Discover_loop l2 features w) as [[f2 w2] t2]. reflexivity.
  - rewrite <- app_comm_cons.
    destruct (discoverFeature_cases S w)
      as [(w1 & t & E)|[(w1 & t & E)|(e & w1 & t & E)]].
    + rewrite !(Discover_loop_found _ _ _ _ _ _ E), IH.
      destruct (Discover_loop l1 _ w1) as [[f1 w2] t1].
      destruct (Discover_loop l2 f1 w2) as [[f2 w3] t2].
      rewrite <- app_assoc. reflexivity.
    + rewrite !(Discover_loop_absent _ _ _ _ _ _ E), IH.
      destruct (Discover_loop l1 _ w1) as [[f1 w2] t1].
      destruct (Discover_loop l2 f1 w2) as [[f2 w3] t2].
      rewrite <- app_assoc. reflexivity.
    + rewrite !(Discover_loop_error _ _ _ _ _ _ _ _ E), IH.
      destruct (Discover_loop l1 _ w1) as [[f1 w2] t1].
      destruct (Discover_loop l2 f1 w2) as [[f2 w3] t2].
      rewrite <- app_assoc. reflexivity.
Qed.

(** Every specification of the list is evaluated, in the list's order. *)
Lemma Discover_loop_evaluated cfg features w :
  evaluated (Discover_loop cfg features w).2 = cfg.
Proof.
  revert features w. induction cfg as [|S cfg IH]; intros features w; [reflexivity|].
  pose proof (discoverFeature_calls S w) as Hc.
  destruct (discoverFeature_cases S w)
    as [(w1 & t & E)|[(w1 & t & E)|(e & w1 & t & E)]]; rewrite E in Hc; simpl in Hc.
  - rewrite (Discover_loop_found _ _ _ _ _ _ E).
    specialize (IH (<[Name S := value_of S]> features) w1).
    destruct (Discover_loop cfg _ w1) as [[fs w2] t2]. simpl in *.
    rewrite evaluated_app, (evaluated_calls _ Hc). cbn. f_equal. exact IH.
  - rewrite (Discover_loop_absent _ _ _ _ _ _ E).
    specialize (IH features w1).
    destruct (Discover_loop cfg _ w1) as [[fs w2] t2]. simpl in *.
    rewrite evaluated_app, (evaluated_calls _ Hc). cbn. f_equal. exact IH.
  - rewrite (Discover_loop_error _ _ _ _ _ _ _ _ E).
    specialize (IH features w1).
    destruct (Discover_loop cfg _ w1) as [[fs w2] t2]. simpl in *.
    rewrite evaluated_app, (evaluated_calls _ Hc). cbn. f_equal. exact IH.
Qed.

(** The map built by the loop: under each name, the value of the last
    specification found under it, else what the map held before. *)
Lemma Discover_loop_lookup cfg features w name :
  let '(fs, _, evs) := Discover_loop cfg features w in
  fs !! name =
    match last_found name evs with
    | Some f => Some (value_of f)
    | None => features !! name
    end.
Proof.
  revert features w. induction cfg as [|S cfg IH]; intros features w; [reflexivity|].
  pose proof (discoverFeature_calls S w) as Hc.
  destruct (discoverFeature_cases S w)
    as [(w1 & t & E)|[(w1 & t & E)|(e & w1 & t & E)]]; rewrite E in Hc; simpl in Hc.
  - rewrite (Discover_loop_found _ _ _ _ _ _ E).
    specialize (IH (<[Name S := value_of S]> features) w1).
    destruct (Discover_loop cfg _ w1) as [[fs w2] t2].
    rewrite IH, last_found_app. cbn [last_found].
    destruct (last_found name t2) as [f|]; [reflexivity|].
    rewrite (last_found_calls _ _ Hc).
    destruct (decide (Name S = name)) as [<-|Hne].
    + apply lookup_insert_eq.
    + apply lookup_insert_ne. exact Hne.
  - rewrite (Discover_loop_absent _ _ _ _ _ _ E).
    specialize (IH features w1).
    destruct (Discover_loop cfg _ w1) as [[fs w2] t2].
    rewrite IH, last_found_app. cbn [last_found].
    destruct (last_found name t2) as [f|]; [reflexivity|].
    rewrite (last_found_calls _ _ Hc). reflexivity.
  - rewrite (Discover_loop_error _ _ _ _ _ _ _ _ E).
    specialize (IH features w1).
    destruct (Discover_loop cfg _ w1) as [[fs w2] t2].
    rewrite IH, last_found_app. cbn [last_found].
    destruct (last_found name t2) as [f|]; [reflexivity|].
    rewrite (last_found_calls _ _ Hc). reflexivity.
Qed.

(** [Discover] on a source whose configuration is set: the dump of the
    merged list, then the loop over it, from the empty map. *)
Lemma Discover_unfold cfg w :
  Discover {| config := Some cfg |} w =
    let merged := getStaticFeatureConfig ++ cfg ++ getDirectoryFeatureConfig w in
    let '(fs, w', t) := Discover_loop merged ∅ w in
    (Returned (fs, None), w', EvKlogDump merged :: t).
Proof.
  unfold Discover. cbn [config]. unfold bind, emit, ret. rewrite <- app_assoc.
  destruct (Discover_loop _ ∅ w) as [[fs w'] t]. cbn. rewrite app_nil_r. reflexivity.
Qed.

(** ** Properties of the aggregator *)

(** C8 (merge order). The specifications that [Discover] evaluates, in the
    order it evaluates them, are the built-in ones, then those of the
    configuration, then those of the directory. *)
Theorem Discover_merge_order cfg w :
  evaluated (Discover {| config := Some cfg |} w).2
  = getStaticFeatureConfig ++ cfg ++ getDirectoryFeatureConfig w.
Proof.
  rewrite Discover_unfold. cbv zeta.
  pose proof (Discover_loop_evaluated
    (getStaticFeatureConfig ++ cfg ++ getDirectoryFeatureConfig w) ∅ w) as H.
  destruct (Discover_loop _ ∅ w) as [[fs w'] t]. exact H.
Qed.

(** C2 (error containment). [Discover] returns a map and a nil error, and
    evaluates every specification of the merged list, whatever fails on the
    way. When the evaluator fails on a specification [S], the failure is
    logged under the name of [S], and the run is the run over the
    specifications before [S], followed by the run over those after it
    started from the very map the former built: [S] adds nothing to it. A
    specification found present after a failed one has its entry in the
    returned map, holding its literal value or else [true], unless a later
    one of its name supersedes it; a failed specification has no entry
    under its name unless some specification of that name was found
    present. *)
Theorem Discover_error_containment cfg w :
  exists features w' evs,
    Discover {| config := Some cfg |} w = (Returned (features, None), w', evs)
    /\ evaluated evs = getStaticFeatureConfig ++ cfg ++ getDirectoryFeatureConfig w
    /\ (forall pre S post fpre wpre tpre b e w1 t,
          getStaticFeatureConfig ++ cfg ++ getDirectoryFeatureConfig w
          = pre ++ S :: post ->
          Discover_loop pre ∅ w = (fpre, wpre, tpre) ->
          discoverFeature S wpre = ((b, Some e), w1, t) ->
          exists t',
            Discover_loop post fpre w1 = (features, w', t')
            /\ evs = EvKlogDump (pre ++ S :: post)
                     :: tpre ++ t ++ EvDiscoverFeature S (b, Some e)
                        :: EvKlogErrorf (Name S) e :: t')
    /\ (forall t1 S1 b e t2 S2 t3,
          evs = t1 ++ EvDiscoverFeature S1 (b, Some e)
                   :: t2 ++ EvDiscoverFeature S2 (true, None) :: t3 ->
          Forall (fun ev => ~ found (Name S2) ev) t3 ->
          features !! Name S2
          = Some (match Value S2 with Some v => IString v | None => IBool true end))
    /\ (forall t1 S1 b e t2,
          evs = t1 ++ EvDiscoverFeature S1 (b, Some e) :: t2 ->
          Forall (fun ev => ~ found (Name S1) ev) evs ->
          features !! Name S1 = None).
Proof.
  pose proof (Discover_unfold cfg w) as HD. cbv zeta in HD.
  set (merged := getStaticFeatureConfig ++ cfg ++ getDirectoryFeatureConfig w) in *.
  pose proof (Discover_loop_evaluated merged ∅ w) as Hev.
  pose proof (fun name => Discover_loop_lookup merged ∅ w name) as Hlook.
  destruct (Discover_loop merged ∅ w) as [[fs w'] t] eqn:Hloop.
  exists fs, w', (EvKlogDump merged :: t).
  split; [exact HD|]. split; [exact Hev|]. split; [|split].
  - intros pre S post fpre wpre tpre b e w1 t0 Hmerged Hpre HS.
    rewrite Hmerged in Hloop.
    rewrite Discover_loop_app, Hpre, (Discover_loop_error _ _ _ _ _ _ _ _ HS) in Hloop.
    destruct (Discover_loop post fpre w1) as [[fs2 w2] t2].
    injection Hloop as <- <- <-. exists t2. rewrite Hmerged. split; reflexivity.
  - intros t1 S1 b e t2 S2 t3 Hevs Hlater. rewrite Hlook.
    destruct t1 as [|ev t1]; [discriminate|]. injection Hevs as _ ->.
    change (t1 ++ EvDiscoverFeature S1 (b, Some e)
               :: t2 ++ EvDiscoverFeature S2 (true, None) :: t3)
      with (t1 ++ (EvDiscoverFeature S1 (b, Some e) :: t2)
               ++ EvDiscoverFeature S2 (true, None) :: t3).
    rewrite app_assoc, (last_found_here _ _ _ _ eq_refl Hlater). reflexivity.
  - intros t1 S1 b e t2 _ Hnone. rewrite Hlook.
    apply Forall_cons in Hnone as [_ Hnone].
    rewrite (last_found_none _ _ Hnone). apply lookup_empty.
Qed.

(** C7 (value derivation). When the evaluator returns without error on a
    specification [S] of the merged list, the run goes on from the map built
    so far, to which [S] has added one entry if it was found present, under
    its name, holding its literal value when it has one and [true]
    otherwise, and nothing if it was not. In the map that [Discover] returns,
    the entry under the name of a specification that was found present, and
    that no later specification of that name supersedes, is that value; a
    name under which no specification was found present has no entry. *)
Theorem Discover_value_derivation cfg w :
  (forall pre S post fpre wpre tpre b w1 t,
     getStaticFeatureConfig ++ cfg ++ getDirectoryFeatureConfig w = pre ++ S :: post ->
     Discover_loop pre ∅ w = (fpre, wpre, tpre) ->
     discoverFeature S wpre = ((b, None), w1, t) ->
     exists features w' t',
       Discover_loop post
         (if b
          then <[Name S := match Value S with Some v => IString v | None => IBool true end]>
                 fpre
          else fpre) w1
       = (features, w', t')
       /\ Discover {| config := Some cfg |} w
          = (Returned (features, None), w',
             EvKlogDump (pre ++ S :: post)
             :: tpre ++ t ++ EvDiscoverFeature S (b, None) :: t'))
  /\ exists features w' evs,
       Discover {| config := Some cfg |} w = (Returned (features, None), w', evs)
       /\ (forall t1 f t2,
             evs = t1 ++ EvDiscoverFeature f (true, None) :: t2 ->
             Forall (fun ev => ~ found (Name f) ev) t2 ->
             features !! Name f =
               Some (match Value f with Some v => IString v | None => IBool true end))
       /\ (forall name,
             Forall (fun ev => ~ found name ev) evs -> features !! name = None).
Proof.
  split.
  { intros pre S post fpre wpre tpre b w1 t Hmerged Hpre HS.
    rewrite Discover_unfold, Hmerged. cbv zeta.
    rewrite Discover_loop_app, Hpre. destruct b.
    - rewrite (Discover_loop_found _ _ _ _ _ _ HS). unfold value_of.
      destruct (Discover_loop post _ w1) as [[fs w2] t2].
      exists fs, w2, t2. split; reflexivity.
    - rewrite (Discover_loop_absent _ _ _ _ _ _ HS).
      destruct (Discover_loop post _ w1) as [[fs w2] t2].
      exists fs, w2, t2. split; reflexivity. }
  rewrite Discover_unfold. cbv zeta.
  set (merged := getStaticFeatureConfig ++ cfg ++ getDirectoryFeatureConfig w).
  pose proof (fun name => Discover_loop_lookup merged ∅ w name) as H.
  destruct (Discover_loop merged ∅ w) as [[fs w'] t].
  exists fs, w', (EvKlogDump merged :: t). split; [reflexivity|]. split.
  - intros t1 f t2 Hevs Hlater. rewrite H.
    destruct t1 as [|ev t1]; [discriminate|]. injection Hevs as _ ->.
    rewrite (last_found_here _ _ _ _ eq_refl Hlater). reflexivity.
  - intros name Hnone. rewrite H.
    apply Forall_cons in Hnone as [_ Hnone].
    rewrite (last_found_none _ _ Hnone). apply lookup_empty.
Qed.

(** C6 (overwrite by order). When two specifications of the same name are
    both found present, [A] before [B], and no specification found after
    [B] bears that name, the map that [Discover] returns holds the value of
    [B] under it. *)
Theorem Discover_last_wins cfg w features w' evs t1 A t2 B t3 :
  Discover {| config := Some cfg |} w = (Returned (features, None), w', evs) ->
  evs = t1 ++ EvDiscoverFeature A (true, None)
           :: t2 ++ EvDiscoverFeature B (true, None) :: t3 ->
  Name A = Name B ->
  Forall (fun ev => ~ found (Name B) ev) t3 ->
  features !! Name A =
    Some (match Value B with Some v => IString v | None => IBool true end).
Proof.
  intros HD Hevs Hname Hlater. rewrite Discover_unfold in HD. cbv zeta in HD.
  set (merged := getStaticFeatureConfig ++ cfg ++ getDirectoryFeatureConfig w) in HD.
  pose proof (Discover_loop_lookup merged ∅ w (Name A)) as H.
  destruct (Discover_loop merged ∅ w) as [[fs w2] t].
  injection HD as -> -> <-. rewrite H.
  destruct t1 as [|ev t1]; [discriminate|]. injection Hevs as _ ->.
  rewrite Hname.
  change (t1 ++ EvDiscoverFeature A (true, None) :: t2 ++ EvDiscoverFeature B (true, None) :: t3)
    with (t1 ++ (EvDiscoverFeature A (true, None) :: t2) ++ EvDiscoverFeature B (true, None) :: t3).
  rewrite app_assoc, (last_found_here _ _ _ _ eq_refl Hlater). reflexivity.
Qed.

(** ** The configuration methods of [Source] *)

(** A value of interface type [source.Config] as [SetConfig] receives it:
    a pointer of type [*config], nil or not, or a value of some other
    dynamic type. *)
Context {OtherConfig : Type}.

Inductive source_Config : Type :=
| ConfigPtr (v : option (list FeatureSpec))
| ConfigOther (v : OtherConfig).

(** [newDefaultConfig] returns [&config{}]. *)
Definition newDefaultConfig : option (list FeatureSpec) := Some [].

Definition NewConfig (s : Source) : source_Config := ConfigPtr newDefaultConfig.

Definition GetConfig (s : Source) : source_Config := ConfigPtr (config s).

(** [SetConfig] stores a [*config]; on any other dynamic type it calls
    [klog.Fatalf], which ends the process: [None]. *)
Definition SetConfig (s : Source) (conf : source_Config) : option Source :=
  match conf with
  | ConfigPtr v => Some {| config := v |}
  | ConfigOther _ => None
  end.

(** ** Further properties of the rule evaluator *)

(** The calls of one rule-set are calls to rules of its slice. *)
Lemma matchRules_calls_present rules w rule res :
  In (EvMatch rule res) (matchRules rules w).2 -> In (Some rule) rules.
Proof.
  destruct (matchRules rules w) as [[r w1] evs] eqn:E. simpl. intros Hin.
  assert (Hp : In rule (omap id rules)).
  { destruct (matchRules_trace _ _ _ _ _ E) as [[_ ->]|(pre & r0 & post & x & Hs & -> & _)].
    - apply in_map_iff in Hin as (r1 & Heq & Hr1). inversion Heq; subst. exact Hr1.
    - rewrite Hs. apply in_or_app. apply in_app_or in Hin as [Hin|[Heq|[]]].
      + left. apply in_map_iff in Hin as (r1 & Heq & Hr1). inversion Heq; subst. exact Hr1.
      + right. left. inversion Heq. reflexivity. }
  apply list_elem_of_In, list_elem_of_omap in Hp as (o & Ho & Hid).
  destruct o; simpl in Hid; [|discriminate]. injection Hid as ->.
  apply list_elem_of_In. exact Ho.
Qed.

(** One rule-set makes at most as many calls as its slice has entries. *)
Lemma matchRules_call_bound rules w :
  length (matchRules rules w).2 <= length rules.
Proof.
  revert w. induction rules as [|[rule|] rules IH]; intros w.
  - apply Nat.le_refl.
  - destruct (rule_Match_cases rule w) as [[w2 Hm]|[[w2 Hm]|(b & e & w2 & Hm)]].
    + rewrite (matchRules_true _ _ _ _ Hm). specialize (IH w2).
      destruct (matchRules rules w2) as [[res w3] t]. simpl in *.
      apply le_n_S. exact IH.
    + rewrite (matchRules_false _ _ _ _ Hm). simpl. apply le_n_S, Nat.le_0_l.
    + rewrite (matchRules_err _ _ _ _ _ _ Hm). simpl. apply le_n_S, Nat.le_0_l.
  - rewrite matchRules_skip. simpl. apply Nat.le_le_succ_r. apply IH.
Qed.

(** X1. The evaluator calls no rule but the present slots of the rule-sets of
    the specification it is given. *)
Theorem discoverFeature_calls_configured feature w rule res :
  In (EvMatch rule res) (discoverFeature feature w).2 ->
  exists rs, In rs (MatchOn feature) /\ In (Some rule) (allRules rs).
Proof.
  unfold discoverFeature. generalize (MatchOn feature) as matchOn. intros matchOn.
  revert w. induction matchOn as [|rs matchOn IH]; intros w Hin; [destruct Hin|].
  pose proof (matchRules_calls_present (allRules rs) w rule res) as Hrs.
  destruct (matchRules_cases (allRules rs) w)
    as [(w2 & t & Hm)|[(w2 & t & Hm)|(e & w2 & t & Hm)]]; rewrite Hm in Hrs; simpl in Hrs.
  - rewrite (loop_match _ _ _ _ _ Hm) in Hin. simpl in Hin.
    exists rs. split; [left; reflexivity|exact (Hrs Hin)].
  - rewrite (loop_next _ _ _ _ _ Hm) in Hin. specialize (IH w2).
    destruct (discoverFeature_loop matchOn w2) as [[res2 w3] t3]. simpl in *.
    apply in_app_or in Hin as [Hin|Hin].
    + exists rs. split; [left; reflexivity|exact (Hrs Hin)].
    + destruct (IH Hin) as (rs' & Hrs' & Hslot). exists rs'. split; [right; exact Hrs'|exact Hslot].
  - rewrite (loop_error _ _ _ _ _ _ _ Hm) in Hin. simpl in Hin.
    exists rs. split; [left; reflexivity|exact (Hrs Hin)].
Qed.

(** X2. The evaluator makes at most six calls per rule-set of the
    specification, and its trace holds nothing but these calls. *)
Theorem discoverFeature_call_bound feature w :
  length (discoverFeature feature w).2 <= 6 * length (MatchOn feature)
  /\ Forall is_call (discoverFeature feature w).2.
Proof.
  split; [|apply discoverFeature_calls].
  unfold discoverFeature. generalize (MatchOn feature) as matchOn. intros matchOn.
  revert w. induction matchOn as [|rs matchOn IH]; intros w; [apply Nat.le_refl|].
  pose proof (matchRules_call_bound (allRules rs) w) as Hrs.
  change (length (allRules rs)) with 6 in Hrs.
  change (length (rs :: matchOn)) with (S (length matchOn)).
  destruct (matchRules_cases (allRules rs) w)
    as [(w2 & t & Hm)|[(w2 & t & Hm)|(e & w2 & t & Hm)]];
    rewrite Hm in Hrs; cbn [snd] in Hrs.
  - rewrite (loop_match _ _ _ _ _ Hm). cbn [snd]. lia.
  - rewrite (loop_next _ _ _ _ _ Hm). specialize (IH w2).
    destruct (discoverFeature_loop matchOn w2) as [[res2 w3] t3]. cbn [snd] in *.
    rewrite length_app. lia.
  - rewrite (loop_error _ _ _ _ _ _ _ Hm). cbn [snd]. lia.
Qed.

(** X3. Alternatives appended to a specification are tried only when the ones
    it has all fail without error: a match or an error already reached
    stands, with the same host state and the same calls. *)
Theorem discoverFeature_append name value l1 l2 w :
  discoverFeature {| Name := name; Value := value; MatchOn := l1 ++ l2 |} w =
    let '(res, w1, t1) :=
      discoverFeature {| Name := name; Value := value; MatchOn := l1 |} w in
    match res with
    | (false, None) =>
        let '(res2, w2, t2) :=
          discoverFeature {| Name := name; Value := value; MatchOn := l2 |} w1 in
        (res2, w2, t1 ++ t2)
    | _ => (res, w1, t1)
    end.
Proof.
  unfold discoverFeature. cbn [MatchOn].
  destruct (discoverFeature_loop l1 w) as [[res w1] t1] eqn:E.
  destruct res as [[] [e|]].
  - exfalso. destruct (discoverFeature_cases {| Name := name; Value := value; MatchOn := l1 |} w)
      as [(w2 & t & E')|[(w2 & t & E')|(e' & w2 & t & E')]];
      unfold discoverFeature in E'; cbn [MatchOn] in E'; rewrite E in E'; discriminate.
  - assert (Hne : (true, @None error) <> (false, None)) by discriminate.
    destruct (loop_decided _ _ _ _ _ E Hne)
      as (pre & rs & post & w0 & t0 & t2 & res' & -> & Hpre & Hrs & -> & Hcase).
    destruct Hcase as [[-> _]|(e & _ & ?)]; [|discriminate].
    rewrite <- app_assoc, <- app_comm_cons.
    rewrite (loop_app _ _ _ _ _ Hpre), (loop_match _ _ _ _ _ Hrs). reflexivity.
  - assert (Hne : (false, Some e) <> (false, None)) by discriminate.
    destruct (loop_decided _ _ _ _ _ E Hne)
      as (pre & rs & post & w0 & t0 & t2 & res' & -> & Hpre & Hrs & -> & Hcase).
    destruct Hcase as [[_ ?]|(e' & -> & He)]; [discriminate|]. injection He as <-.
    rewrite <- app_assoc, <- app_comm_cons.
    rewrite (loop_app _ _ _ _ _ Hpre), (loop_error _ _ _ _ _ _ _ Hrs). reflexivity.
  - apply (loop_app _ _ _ _ _ E).
Qed.

(** ** Further properties of the aggregator *)

(** The lines written through [klog.Errorf], as (name, error) pairs. *)
Definition logged (evs : list Event) : list (string * error) :=
  omap (fun ev => match ev with EvKlogErrorf name e => Some (name, e) | _ => None end) evs.

(** The evaluations that failed, as (name, error) pairs. *)
Definition failed (evs : list Event) : list (string * error) :=
  omap (fun ev =>
          match ev with
          | EvDiscoverFeature f (_, Some e) => Some (Name f, e)
          | _ => None
          end) evs.

Lemma logged_calls t : Forall is_call t -> logged t = [].
Proof.
  induction 1 as [|ev t Hev _ IH]; [reflexivity|].
  destruct ev; try destruct Hev. exact IH.
Qed.

Lemma failed_calls t : Forall is_call t -> failed t = [].
Proof.
  induction 1 as [|ev t Hev _ IH]; [reflexivity|].
  destruct ev; try destruct Hev. exact IH.
Qed.

Lemma Discover_loop_logged cfg features w :
  logged (Discover_loop cfg features w).2 = failed (Discover_loop cfg features w).2.
Proof.
  revert features w. induction cfg as [|S cfg IH]; intros features w; [reflexivity|].
  pose proof (discoverFeature_calls S w) as Hc.
  destruct (discoverFeature_cases S w)
    as [(w1 & t & E)|[(w1 & t & E)|(e & w1 & t & E)]]; rewrite E in Hc; cbn [snd] in Hc.
  - rewrite (Discover_loop_found _ _ _ _ _ _ E).
    specialize (IH (<[Name S := value_of S]> features) w1).
    destruct (Discover_loop cfg _ w1) as [[fs w2] t2]. cbn [snd] in *.
    unfold logged, failed in *. rewrite !omap_app.
    fold (logged t). fold (failed t).
    rewrite (logged_calls _ Hc), (failed_calls _ Hc). cbn. exact IH.
  - rewrite (Discover_loop_absent _ _ _ _ _ _ E).
    specialize (IH features w1).
    destruct (Discover_loop cfg _ w1) as [[fs w2] t2]. cbn [snd] in *.
    unfold logged, failed in *. rewrite !omap_app.
    fold (logged t). fold (failed t).
    rewrite (logged_calls _ Hc), (failed_calls _ Hc). cbn. exact IH.
  - rewrite (Discover_loop_error _ _ _ _ _ _ _ _ E).
    specialize (IH features w1).
    destruct (Discover_loop cfg _ w1) as [[fs w2] t2]. cbn [snd] in *.
    unfold logged, failed in *. rewrite !omap_app.
    fold (logged t). fold (failed t).
    rewrite (logged_calls _ Hc), (failed_calls _ Hc). cbn. f_equal. exact IH.
Qed.

(** X5. [Discover] writes one error line per specification whose evaluation
    failed, in the order of the failures, with the name of the
    specification and the error met, and no other error line. *)
Theorem Discover_logs_failures cfg w :
  logged (Discover {| config := Some cfg |} w).2
  = failed (Discover {| config := Some cfg |} w).2.
Proof.
  rewrite Discover_unfold. cbv zeta.
  pose proof (Discover_loop_logged
    (getStaticFeatureConfig ++ cfg ++ getDirectoryFeatureConfig w) ∅ w) as H.
  destruct (Discover_loop _ ∅ w) as [[fs w'] t]. exact H.
Qed.

Lemma last_found_Some name evs f :
  last_found name evs = Some f ->
  Name f = name /\ In (EvDiscoverFeature f (true, None)) evs.
Proof.
  induction evs as [|ev evs IH]; [discriminate|]. cbn [last_found].
  destruct (last_found name evs) as [g|].
  - intros Heq. injection Heq as ->. destruct (IH eq_refl) as [Hn Hin].
    split; [exact Hn|right; exact Hin].
  - destruct ev as [| g [[] [e|]] | |]; try discriminate.
    destruct (decide (Name g = name)) as [Hn|]; [|discriminate].
    intros Heq. injection Heq as ->. split; [exact Hn|left; reflexivity].
Qed.

Lemma evaluated_In f res evs :
  In (EvDiscoverFeature f res) evs -> In f (evaluated evs).
Proof.
  intros Hin. apply list_elem_of_In. apply list_elem_of_omap.
  exists (EvDiscoverFeature f res). split; [apply list_elem_of_In; exact Hin|reflexivity].
Qed.

(** X6. Every entry of the map that [Discover] returns comes from a
    specification of the merged configuration that was found present: the
    key is its name, the value its literal value or else [true]. *)
Theorem Discover_entries_from_config cfg w features err w' evs name v :
  Discover {| config := Some cfg |} w = (Returned (features, err), w', evs) ->
  features !! name = Some v ->
  exists f,
    In f (getStaticFeatureConfig ++ cfg ++ getDirectoryFeatureConfig w)
    /\ Name f = name
    /\ In (EvDiscoverFeature f (true, None)) evs
    /\ v = match Value f with Some s => IString s | None => IBool true end.
Proof.
  intros HD Hv.
  rewrite Discover_unfold in HD. cbv zeta in HD.
  set (merged := getStaticFeatureConfig ++ cfg ++ getDirectoryFeatureConfig w) in *.
  pose proof (Discover_loop_lookup merged ∅ w name) as H.
  pose proof (Discover_loop_evaluated merged ∅ w) as Hev.
  destruct (Discover_loop merged ∅ w) as [[fs w2] t].
  injection HD as -> _ -> <-. cbn [snd] in Hev.
  rewrite H in Hv. destruct (last_found name t) as [f|] eqn:Hlast.
  - destruct (last_found_Some _ _ _ Hlast) as [Hn Hin].
    exists f. split; [|split; [exact Hn|split; [right; exact Hin|]]].
    + rewrite <- Hev. apply (evaluated_In f (true, None)). exact Hin.
    + injection Hv as <-. reflexivity.
  - rewrite lookup_empty in Hv. discriminate.
Qed.

Lemma last_found_In name evs f :
  In (EvDiscoverFeature f (true, None)) evs -> Name f = name ->
  exists g, last_found name evs = Some g.
Proof.
  intros Hin Hn. induction evs as [|ev evs IH]; [destruct Hin|].
  cbn [last_found]. destruct Hin as [->|Hin].
  - destruct (last_found name evs) as [g|]; [eauto|].
    destruct (decide (Name f = name)); [eauto|contradiction].
  - destruct (IH Hin) as [g ->]. eauto.
Qed.

Lemma NoDup_Name_eq (l : list FeatureSpec) f g :
  NoDup (Name <$> l) -> In f l -> In g l -> Name f = Name g -> f = g.
Proof.
  induction l as [|h l IH]; intros Hnd Hf Hg Hn; [destruct Hf|].
  rewrite fmap_cons in Hnd. apply NoDup_cons in Hnd as [Hh Hnd].
  assert (Hname : forall x, In x l -> Name x ∈ Name <$> l).
  { intros x Hx. apply list_elem_of_fmap. exists x. split; [reflexivity|].
    apply list_elem_of_In. exact Hx. }
  destruct Hf as [->|Hf], Hg as [->|Hg].
  - reflexivity.
  - exfalso. apply Hh. rewrite Hn. apply Hname, Hg.
  - exfalso. apply Hh. rewrite <- Hn. apply Hname, Hf.
  - apply IH; assumption.
Qed.

Lemma Discover_entries_from_config_aux cfg w features err w' evs name v :
  Discover {| config := Some cfg |} w = (Returned (features, err), w', evs) ->
  features !! name = Some v ->
  exists g, Name g = name /\ In (EvDiscoverFeature g (true, None)) evs.
Proof.
  intros HD Hv. rewrite Discover_unfold in HD. cbv zeta in HD.
  set (merged := getStaticFeatureConfig ++ cfg ++ getDirectoryFeatureConfig w) in *.
  pose proof (Discover_loop_lookup merged ∅ w name) as H.
  destruct (Discover_loop merged ∅ w) as [[fs w2] t].
  injection HD as -> _ -> <-.
  rewrite H in Hv. destruct (last_found name t) as [g|] eqn:Hlast.
  - destruct (last_found_Some _ _ _ Hlast) as [Hn Hin]. exists g. split; [exact Hn|right; exact Hin].
  - rewrite lookup_empty in Hv. discriminate.
Qed.

(** X7. When the specifications of the merged configuration bear pairwise
    distinct names, the map that [Discover] returns holds, for each of
    them, its value if it was found present and no entry if it was not. *)
Theorem Discover_distinct_names cfg w features err w' evs f :
  NoDup (Name <$> getStaticFeatureConfig ++ cfg ++ getDirectoryFeatureConfig w) ->
  Discover {| config := Some cfg |} w = (Returned (features, err), w', evs) ->
  In f (getStaticFeatureConfig ++ cfg ++ getDirectoryFeatureConfig w) ->
  (In (EvDiscoverFeature f (true, None)) evs ->
   features !! Name f
   = Some (match Value f with Some s => IString s | None => IBool true end))
  /\ (~ In (EvDiscoverFeature f (true, None)) evs -> features !! Name f = None).
Proof.
  intros Hnd HD Hf.
  assert (Hsame : forall g, In (EvDiscoverFeature g (true, None)) evs ->
                            Name g = Name f -> g = f).
  { intros g Hg Hn. rewrite Discover_unfold in HD. cbv zeta in HD.
    set (merged := getStaticFeatureConfig ++ cfg ++ getDirectoryFeatureConfig w) in *.
    pose proof (Discover_loop_evaluated merged ∅ w) as Hev.
    destruct (Discover_loop merged ∅ w) as [[fs w2] t].
    injection HD as _ _ _ <-. cbn [snd] in Hev.
    destruct Hg as [Hg|Hg]; [discriminate|].
    apply (NoDup_Name_eq merged); [exact Hnd| |exact Hf|exact Hn].
    rewrite <- Hev. apply (evaluated_In g (true, None)). exact Hg. }
  split.
  - intros Hfound.
    pose proof HD as HD'. rewrite Discover_unfold in HD'. cbv zeta in HD'.
    set (merged := getStaticFeatureConfig ++ cfg ++ getDirectoryFeatureConfig w) in *.
    pose proof (Discover_loop_lookup merged ∅ w (Name f)) as H.
    destruct (Discover_loop merged ∅ w) as [[fs w2] t].
    injection HD' as -> _ -> <-.
    destruct Hfound as [Hfound|Hfound]; [discriminate|].
    destruct (last_found_In _ _ _ Hfound eq_refl) as [g Hg].
    rewrite H, Hg. destruct (last_found_Some _ _ _ Hg) as [Hn Hin].
    rewrite (Hsame g (or_intror Hin) Hn). reflexivity.
  - intros Hnot. destruct (features !! Name f) as [v|] eqn:Hv; [|reflexivity].
    exfalso. apply Hnot.
    destruct (Discover_entries_from_config_aux _ _ _ _ _ _ _ _ HD Hv)
      as (g & Hn & Hin).
    rewrite <- (Hsame g Hin Hn). exact Hin.
Qed.

(** ** Rules that only read the host *)

(** No rule changes the host state. *)
Definition read_only : Prop :=
  forall rule w, (rule_Match rule w).2 = w.

Lemma matchRules_read_only rules w :
  read_only -> (matchRules rules w).1.2 = w.
Proof.
  intros Hro. revert w. induction rules as [|[rule|] rules IH]; intros w.
  - reflexivity.
  - specialize (Hro rule w).
    destruct (rule_Match_cases rule w) as [[w2 Hm]|[[w2 Hm]|(b & e & w2 & Hm)]];
      rewrite Hm in Hro; cbn [snd] in Hro; subst w2.
    + rewrite (matchRules_true _ _ _ _ Hm). specialize (IH w).
      destruct (matchRules rules w) as [[res w3] t]. exact IH.
    + rewrite (matchRules_false _ _ _ _ Hm). reflexivity.
    + rewrite (matchRules_err _ _ _ _ _ _ Hm). reflexivity.
  - rewrite matchRules_skip. apply IH.
Qed.

Lemma discoverFeature_read_only feature w :
  read_only -> (discoverFeature feature w).1.2 = w.
Proof.
  intros Hro. unfold discoverFeature. generalize (MatchOn feature) as matchOn.
  intros matchOn. induction matchOn as [|rs matchOn IH]; [reflexivity|].
  pose proof (matchRules_read_only (allRules rs) w Hro) as Hw.
  destruct (matchRules_cases (allRules rs) w)
    as [(w2 & t & Hm)|[(w2 & t & Hm)|(e & w2 & t & Hm)]];
    rewrite Hm in Hw; cbn [fst snd] in Hw; subst w2.
  - rewrite (loop_match _ _ _ _ _ Hm). reflexivity.
  - rewrite (loop_next _ _ _ _ _ Hm).
    destruct (discoverFeature_loop matchOn w) as [[res w3] t3]. exact IH.
  - rewrite (loop_error _ _ _ _ _ _ _ Hm). reflexivity.
Qed.

(** What a slot of a rule-set answers on host [w]; an absent slot agrees. *)
Definition slot_matches (w : World) (slot : option AnyRule) : bool :=
  match slot with
  | Some rule => (rule_Match rule w).1.1
  | None => true
  end.

Lemma matchRules_read_only_and rules w :
  read_only ->
  (forall rule, In (Some rule) rules -> (rule_Match rule w).1.2 = None) ->
  (matchRules rules w).1.1 = (forallb (slot_matches w) rules, None).
Proof.
  intros Hro. induction rules as [|[rule|] rules IH]; intros Hok.
  - reflexivity.
  - pose proof (Hro rule w) as Hw. pose proof (Hok rule (or_introl eq_refl)) as He.
    assert (Hok' : forall r, In (Some r) rules -> (rule_Match r w).1.2 = None).
    { intros r Hr. apply Hok. right. exact Hr. }
    specialize (IH Hok'). cbn [forallb slot_matches].
    destruct (rule_Match_cases rule w) as [[w2 Hm]|[[w2 Hm]|(b & e & w2 & Hm)]];
      rewrite Hm in Hw, He |- *; cbn [fst snd] in Hw, He |- *; subst.
    + rewrite (matchRules_true _ _ _ _ Hm).
      destruct (matchRules rules w) as [[res w3] t]. exact IH.
    + rewrite (matchRules_false _ _ _ _ Hm). reflexivity.
    + discriminate.
  - rewrite matchRules_skip. apply IH. intros r Hr. apply Hok. right. exact Hr.
Qed.

(** The evaluator on rules that only read the host, in terms of the slice
    of each rule-set. *)
Lemma discoverFeature_read_only_slices feature w :
  read_only ->
  (forall rs rule, In rs (MatchOn feature) -> In (Some rule) (allRules rs) ->
                   (rule_Match rule w).1.2 = None) ->
  (discoverFeature feature w).1.1
  = (existsb (fun rs => forallb (slot_matches w) (allRules rs)) (MatchOn feature), None).
Proof.
  intros Hro. unfold discoverFeature. generalize (MatchOn feature) as matchOn.
  intros matchOn. induction matchOn as [|rs matchOn IH]; intros Hok; [reflexivity|].
  pose proof (matchRules_read_only (allRules rs) w Hro) as Hw.
  pose proof (matchRules_read_only_and (allRules rs) w Hro
                (fun r Hr => Hok rs r (or_introl eq_refl) Hr)) as Hres.
  assert (Hok' : forall rs' r, In rs' matchOn -> In (Some r) (allRules rs') ->
                               (rule_Match r w).1.2 = None).
  { intros rs' r Hrs'. apply Hok. right. exact Hrs'. }
  specialize (IH Hok'). cbn [existsb].
  destruct (matchRules_cases (allRules rs) w)
    as [(w2 & t & Hm)|[(w2 & t & Hm)|(e & w2 & t & Hm)]];
    rewrite Hm in Hw, Hres; cbn [fst snd] in Hw, Hres; subst w2.
  - rewrite (loop_match _ _ _ _ _ Hm).
    pose proof (f_equal fst Hres) as Hb. cbn [fst] in Hb. rewrite <- Hb. reflexivity.
  - rewrite (loop_next _ _ _ _ _ Hm).
    pose proof (f_equal fst Hres) as Hb. cbn [fst] in Hb. rewrite <- Hb.
    destruct (discoverFeature_loop matchOn w) as [[res w3] t3]. exact IH.
  - discriminate.
Qed.

(** X4. With rules that only read the host, and none of which, among those
    in the PciID, UsbID, LoadedKMod, CpuID, Kconfig and Nodename slots of the
    rule-sets of the specification, fails on it, the evaluator returns no
    error and the disjunction, over the rule-sets, of the conjunction of the
    answers of these six slots, an absent slot agreeing. *)
Theorem discoverFeature_read_only_dnf feature w :
  read_only ->
  (forall rs rule,
     In rs (MatchOn feature) ->
     In (Some rule)
        [ RPciID <$> PciID rs; RUsbID <$> UsbID rs; RLoadedKMod <$> LoadedKMod rs;
          RCpuID <$> CpuID rs; RKconfig <$> Kconfig rs; RNodename <$> Nodename rs ] ->
     (rule_Match rule w).1.2 = None) ->
  (discoverFeature feature w).1.1
  = (existsb
       (fun rs =>
          forallb (slot_matches w)
            [ RPciID <$> PciID rs; RUsbID <$> UsbID rs; RLoadedKMod <$> LoadedKMod rs;
              RCpuID <$> CpuID rs; RKconfig <$> Kconfig rs; RNodename <$> Nodename rs ])
       (MatchOn feature), None).
Proof.
  intros Hro Hok. exact (discoverFeature_read_only_slices feature w Hro Hok).
Qed.

Lemma Discover_loop_read_only cfg features w :
  read_only ->
  (Discover_loop cfg features w).1
  = (foldl (fun m f =>
              match (discoverFeature f w).1.1 with
              | (true, None) =>
                  <[Name f := match Value f with Some v => IString v | None => IBool true end]> m
              | _ => m
              end) features cfg, w).
Proof.
  intros Hro. revert features. induction cfg as [|S cfg IH]; intros features; [reflexivity|].
  pose proof (discoverFeature_read_only S w Hro) as Hw. cbn [foldl].
  destruct (discoverFeature_cases S w)
    as [(w1 & t & E)|[(w1 & t & E)|(e & w1 & t & E)]];
    rewrite E in Hw |- *; cbn [fst snd] in Hw |- *; subst w1.
  - rewrite (Discover_loop_found _ _ _ _ _ _ E). unfold value_of.
    specialize (IH (<[Name S := match Value S with Some v => IString v | None => IBool true end]>
                      features)).
    destruct (Discover_loop cfg _ w) as [[fs w2] t2]. exact IH.
  - rewrite (Discover_loop_absent _ _ _ _ _ _ E). specialize (IH features).
    destruct (Discover_loop cfg _ w) as [[fs w2] t2]. exact IH.
  - rewrite (Discover_loop_error _ _ _ _ _ _ _ _ E). specialize (IH features).
    destruct (Discover_loop cfg _ w) as [[fs w2] t2]. exact IH.
Qed.

(** X8. With rules that only read the host, [Discover] leaves the host as it
    found it, and each specification is decided on that one host: the map
    returned is the left fold, over the merged configuration, that inserts
    the value of every specification the evaluator finds present on it. *)
Theorem Discover_read_only cfg w :
  read_only ->
  (Discover {| config := Some cfg |} w).1
  = (Returned
       (foldl (fun m f =>
                 match (discoverFeature f w).1.1 with
                 | (true, None) =>
                     <[Name f := match Value f with Some v => IString v | None => IBool true end]> m
                 | _ => m
                 end) ∅ (getStaticFeatureConfig ++ cfg ++ getDirectoryFeatureConfig w),
        None), w).
Proof.
  intros Hro. rewrite Discover_unfold. cbv zeta.
  pose proof (Discover_loop_read_only
    (getStaticFeatureConfig ++ cfg ++ getDirectoryFeatureConfig w) ∅ w Hro) as H.
  destruct (Discover_loop _ ∅ w) as [[fs w'] t]. cbn [fst] in *.
  injection H as -> ->. reflexivity.
Qed.

(** ** The configuration life cycle *)

(** X9. Whatever configuration a source held, once it is given the default one
    ([SetConfig] of [NewConfig]) it reports that configuration back, and
    [Discover] returns, having evaluated the built-in specifications and
    then those of the directory, and no others. *)
Theorem SetConfig_NewConfig_Discover s w :
  exists s',
    SetConfig s (NewConfig s) = Some s'
    /\ GetConfig s' = NewConfig s
    /\ exists features w' evs,
         Discover s' w = (Returned (features, None), w', evs)
         /\ evaluated evs = getStaticFeatureConfig ++ getDirectoryFeatureConfig w.
Proof.
  exists {| config := Some [] |}. split; [reflexivity|]. split; [reflexivity|].
  rewrite Discover_unfold. cbv zeta.
  pose proof (Discover_loop_evaluated
    (getStaticFeatureConfig ++ [] ++ getDirectoryFeatureConfig w) ∅ w) as H.
  destruct (Discover_loop _ ∅ w) as [[fs w'] t].
  exists fs, w', (EvKlogDump (getStaticFeatureConfig ++ [] ++ getDirectoryFeatureConfig w) :: t).
  split; [reflexivity|]. exact H.
Qed.


End custom.

(** * Rule stubs

    Rules whose [Match()] returns a fixed answer, on a host that merely
    counts the calls made to its rules. *)

Record StubRule : Type := { stub_match : bool; stub_err : option string }.

#[export] Instance StubRule_Rule : @Rule nat string StubRule :=
  fun r calls => ((stub_match r, stub_err r), S calls).

Definition yes : StubRule := {| stub_match := true; stub_err := None |}.
Definition no : StubRule := {| stub_match := false; stub_err := None |}.
Definition broken : StubRule := {| stub_match := false; stub_err := Some "unreadable" |}.
Definition confused : StubRule := {| stub_match := true; stub_err := Some "unreadable" |}.

Definition StubMatchRule : Type :=
  @MatchRule StubRule StubRule StubRule StubRule StubRule StubRule.
Definition StubFeatureSpec : Type :=
  @FeatureSpec StubRule StubRule StubRule StubRule StubRule StubRule.

(** A rule-set with no slot present. *)
Definition rs_empty : StubMatchRule :=
  {| PciID := None; UsbID := None; LoadedKMod := None;
     CpuID := None; Kconfig := None; Nodename := None |}.

(** A rule-set with the PciID slot only. *)
Definition rs_pci (r : StubRule) : StubMatchRule :=
  {| PciID := Some r; UsbID := None; LoadedKMod := None;
     CpuID := None; Kconfig := None; Nodename := None |}.

(** A rule-set with the PciID and Nodename slots. *)
Definition rs_pci_nodename (r1 r2 : StubRule) : StubMatchRule :=
  {| PciID := Some r1; UsbID := None; LoadedKMod := None;
     CpuID := None; Kconfig := None; Nodename := Some r2 |}.

Definition spec (name : string) (value : option string) (matchOn : list StubMatchRule)
    : StubFeatureSpec :=
  {| Name := name; Value := value; MatchOn := matchOn |}.

(** [Discover] with an empty built-in list and an empty directory. *)
Definition Discover_user (cfg : list StubFeatureSpec) :=
  Discover (World := nat) [] (fun _ => []) {| config := Some cfg |} 0.

(** The end-to-end scenarios: a matching PCI rule yields the feature with
    value [true], a PCI rule that does not match yields the empty map. *)
Example scenario_gpu_present :
  (Discover_user [spec "gpu.present" None [rs_pci yes]]).1.1
  = Returned ({[ "gpu.present" := IBool true ]}, None).
Proof. vm_compute. reflexivity. Qed.

Example scenario_gpu_absent :
  (Discover_user [spec "gpu.present" None [rs_pci no]]).1.1 = Returned (∅, None).
Proof. vm_compute. reflexivity. Qed.

(** A source whose configuration was never set cannot be discovered. *)
Example Discover_nil_config :
  Discover (World := nat) (error := string)
    (PciIDRule := StubRule) (UsbIDRule := StubRule) (LoadedKModRule := StubRule)
    (CpuIDRule := StubRule) (KconfigRule := StubRule) (NodenameRule := StubRule)
    [] (fun _ => []) {| config := None |} 0
  = (Panicked, 0, []).
Proof. reflexivity. Qed.

(** A rule that returns both a match and an error counts as failed. *)
Example confused_rule_is_an_error :
  discoverFeature (spec "f" None [rs_pci confused]) 0
  = ((false, Some "unreadable"), 1, [EvMatch (RPciID confused) (true, Some "unreadable")]).
Proof. reflexivity. Qed.

(** A slot that does not match hides the error of a later slot of the same
    rule-set, and the next rule-set is tried. *)
Example later_error_not_surfaced :
  discoverFeature (spec "f" None [rs_pci_nodename no broken; rs_pci yes]) 0
  = ((true, None), 2,
     [EvMatch (RPciID no) (false, None); EvMatch (RPciID yes) (true, None)]).
Proof. reflexivity. Qed.

Definition StubEvent : Type :=
  @Event string StubRule StubRule StubRule StubRule StubRule StubRule.

(** The calls made on [no; yes+broken; yes]: the third alternative is absent. *)
Definition trace_fail_fast : list StubEvent :=
  [ EvMatch (RPciID no) (false, None);
    EvMatch (RPciID yes) (true, None);
    EvMatch (RNodename broken) (false, Some "unreadable") ].

(** ** The properties at work on the stubs *)

(** A rule-set whose second present slot does not match does not match;
    with that slot matching too, it does. *)
Lemma matchRules_conjunction_witness :
  Forall (fun res => res.2 = None)
    (evaluateAll [Some (RPciID yes); None; None; None; None; Some (RNodename no)] 0)
  /\ (matchRules (allRules (rs_pci_nodename yes no)) 0).1.1 = (false, None)
  /\ Forall (fun res => res.2 = None)
       (evaluateAll [Some (RPciID yes); None; None; None; None; Some (RNodename yes)] 0)
  /\ (matchRules (allRules (rs_pci_nodename yes yes)) 0).1.1 = (true, None).
Proof.
  assert (H1 : Forall (fun res : bool * option string => res.2 = None)
    (evaluateAll [Some (RPciID yes); None; None; None; None; Some (RNodename no)] 0)).
  { repeat constructor. }
  assert (H2 : Forall (fun res : bool * option string => res.2 = None)
    (evaluateAll [Some (RPciID yes); None; None; None; None; Some (RNodename yes)] 0)).
  { repeat constructor. }
  split; [exact H1|]. split; [|split; [exact H2|]].
  - destruct (proj1 (matchRules_conjunction (rs_pci_nodename yes no) 0) H1)
      as (m & Hm & Hiff).
    rewrite Hm. destruct m; [|reflexivity].
    exfalso. pose proof (proj1 Hiff eq_refl) as Hall.
    apply Forall_cons in Hall as [_ Hall]. apply Forall_cons in Hall as [Hno _].
    discriminate Hno.
  - destruct (proj1 (matchRules_conjunction (rs_pci_nodename yes yes) 0) H2)
      as (m & Hm & Hiff).
    rewrite Hm. f_equal. apply Hiff. repeat constructor.
Defined.

(** First alternative fails, second one matches, third one would fail with
    an error if it were tried. *)
Lemma discoverFeature_first_match_witness :
  discoverFeature_loop [rs_pci no] 0
    = ((false, None), 1, [EvMatch (RPciID no) (false, None)])
  /\ matchRules (allRules (rs_pci_nodename yes yes)) 1
    = ((true, None), 3, [matched (RPciID yes); matched (RNodename yes)])
  /\ discoverFeature
       {| Name := "f"; Value := None;
          MatchOn := [rs_pci no] ++ rs_pci_nodename yes yes :: [rs_pci broken] |} 0
     = ((true, None), 3,
        [EvMatch (RPciID no) (false, None)]
        ++ [matched (RPciID yes); matched (RNodename yes)]).
Proof.
  split; [reflexivity|]. split; [reflexivity|].
  apply (discoverFeature_first_match "f" None [rs_pci no] (rs_pci_nodename yes yes)
           [rs_pci broken] 0 1 _ 3 _); reflexivity.
Defined.

(** A rule-set that fails without error, then a single one that does not match. *)
Lemma discoverFeature_exhausted_witness :
  Forall (fun res => res = (false, None))
    (evaluateRuleSets (MatchOn (spec "f" None [rs_pci no; rs_pci_nodename yes no])) 0)
  /\ (discoverFeature (spec "f" None [rs_pci no; rs_pci_nodename yes no]) 0).1.1
     = (false, None).
Proof.
  assert (H : Forall (fun res : bool * option string => res = (false, None))
    (evaluateRuleSets (MatchOn (spec "f" None [rs_pci no; rs_pci_nodename yes no])) 0)).
  { repeat constructor. }
  split; [exact H|].
  exact (proj1 (discoverFeature_exhausted
                  (spec "f" None [rs_pci no; rs_pci_nodename yes no]) 0) H).
Defined.

(** The second alternative fails with an error in its Nodename slot; the
    third one, which would match, is not tried. *)
Lemma discoverFeature_fail_fast_witness :
  discoverFeature (spec "f" None [rs_pci no; rs_pci_nodename yes broken; rs_pci yes]) 0
    = ((false, Some "unreadable"), 3, trace_fail_fast)
  /\ In (EvMatch (RNodename broken) (false, Some "unreadable")) trace_fail_fast
  /\ (false, Some "unreadable") = (false, Some "unreadable")
  /\ exists pre rs post t,
       [rs_pci no; rs_pci_nodename yes broken; rs_pci yes] = pre ++ rs :: post
       /\ In (Some (RNodename broken)) (allRules rs)
       /\ trace_fail_fast = t ++ [EvMatch (RNodename broken) (false, Some "unreadable")]
       /\ forall name value post',
            discoverFeature
              {| Name := name; Value := value; MatchOn := pre ++ rs :: post' |} 0
            = ((false, Some "unreadable"), 3, trace_fail_fast).
Proof.
  assert (Hin : In (EvMatch (RNodename broken) (false, Some "unreadable")) trace_fail_fast).
  { right. right. left. reflexivity. }
  split; [reflexivity|]. split; [exact Hin|].
  exact (discoverFeature_fail_fast
           (spec "f" None [rs_pci no; rs_pci_nodename yes broken; rs_pci yes])
           0 _ 3 _ (RNodename broken) false "unreadable" eq_refl Hin).
Defined.

(** Specifications for the aggregator. *)
Definition spec_a : StubFeatureSpec := spec "dup" (Some "a") [rs_pci yes].
Definition spec_b : StubFeatureSpec := spec "dup" (Some "b") [rs_pci no; rs_pci yes].
Definition spec_flaky : StubFeatureSpec := spec "flaky" None [rs_pci broken].
Definition spec_plain : StubFeatureSpec := spec "plain" None [rs_empty].
Definition spec_never : StubFeatureSpec := spec "never" (Some "x") [rs_pci no].

(** [Discover] on a stub host: [static] built in, [dir] found in the
    directory, [cfg] set as configuration. *)
Definition Discover_stub (static cfg dir : list StubFeatureSpec) :=
  Discover (World := nat) static (fun _ => dir) {| config := Some cfg |} 0.

(** The three sources are evaluated one after the other. *)
Example merge_order_example :
  evaluated (Discover_stub [spec_a; spec_plain] [spec_flaky] [spec_b; spec_never]).2
  = [spec_a; spec_plain; spec_flaky; spec_b; spec_never].
Proof. reflexivity. Qed.

(** A failing specification is logged and skipped; the next one still
    makes it into the map. *)
Example error_containment_example :
  Discover_stub [] [spec_flaky; spec_a] []
  = (Returned ({[ "dup" := IString "a" ]}, None), 2,
     [ EvKlogDump [spec_flaky; spec_a];
       EvMatch (RPciID broken) (false, Some "unreadable");
       EvDiscoverFeature spec_flaky (false, Some "unreadable");
       EvKlogErrorf "flaky" "unreadable";
       EvMatch (RPciID yes) (true, None);
       EvDiscoverFeature spec_a (true, None) ]).
Proof. vm_compute. reflexivity. Qed.

Lemma Discover_error_containment_witness :
  Discover_stub [] [spec_flaky; spec_a] []
    = (Returned ({[ "dup" := IString "a" ]}, None), 2,
       [ EvKlogDump [spec_flaky; spec_a];
         EvMatch (RPciID broken) (false, Some "unreadable") ]
       ++ EvDiscoverFeature spec_flaky (false, Some "unreadable")
          :: [ EvKlogErrorf "flaky" "unreadable"; EvMatch (RPciID yes) (true, None) ]
          ++ EvDiscoverFeature spec_a (true, None) :: [])
  /\ ({[ "dup" := IString "a" ]} : gmap string iface) !! Name spec_a = Some (IString "a")
  /\ ({[ "dup" := IString "a" ]} : gmap string iface) !! Name spec_flaky = None.
Proof.
  assert (HDc : Discover_stub [] [spec_flaky; spec_a] []
    = (Returned ({[ "dup" := IString "a" ]}, None), 2,
       [ EvKlogDump [spec_flaky; spec_a];
         EvMatch (RPciID broken) (false, Some "unreadable") ]
       ++ EvDiscoverFeature spec_flaky (false, Some "unreadable")
          :: [ EvKlogErrorf "flaky" "unreadable"; EvMatch (RPciID yes) (true, None) ]
          ++ EvDiscoverFeature spec_a (true, None) :: [])).
  { vm_compute. reflexivity. }
  split; [exact HDc|].
  destruct (Discover_error_containment [] (fun _ => []) [spec_flaky; spec_a] 0)
    as (features & w' & evs & HD & _ & _ & Hlater & Hnothing).
  pose proof (eq_trans (eq_sym HD) HDc) as Heq. injection Heq as -> _ ->.
  split.
  - apply (Hlater [ EvKlogDump [spec_flaky; spec_a];
                    EvMatch (RPciID broken) (false, Some "unreadable") ]
             spec_flaky false "unreadable"
             [ EvKlogErrorf "flaky" "unreadable"; EvMatch (RPciID yes) (true, None) ]
             spec_a []); [reflexivity|constructor].
  - apply (Hnothing [ EvKlogDump [spec_flaky; spec_a];
                      EvMatch (RPciID broken) (false, Some "unreadable") ]
             spec_flaky false "unreadable"
             ([ EvKlogErrorf "flaky" "unreadable"; EvMatch (RPciID yes) (true, None) ]
              ++ EvDiscoverFeature spec_a (true, None) :: [])); [reflexivity|].
    repeat constructor; intros H; simpl in H; first [contradiction|discriminate].
Defined.

(** The trace of [spec_a] built in, [spec_flaky] configured, [spec_b] and
    [spec_never] in the directory, cut at the two evaluations that found "dup". *)
Definition trace_before_a : list StubEvent :=
  [ EvKlogDump [spec_a; spec_flaky; spec_b; spec_never];
    EvMatch (RPciID yes) (true, None) ].
Definition trace_between : list StubEvent :=
  [ EvMatch (RPciID broken) (false, Some "unreadable");
    EvDiscoverFeature spec_flaky (false, Some "unreadable");
    EvKlogErrorf "flaky" "unreadable";
    EvMatch (RPciID no) (false, None);
    EvMatch (RPciID yes) (true, None) ].
Definition trace_after_b : list StubEvent :=
  [ EvMatch (RPciID no) (false, None);
    EvDiscoverFeature spec_never (false, None) ].

Lemma Discover_last_wins_witness :
  Discover_stub [spec_a] [spec_flaky] [spec_b; spec_never]
    = (Returned ({[ "dup" := IString "b" ]}, None), 5,
       trace_before_a ++ EvDiscoverFeature spec_a (true, None)
         :: trace_between ++ EvDiscoverFeature spec_b (true, None) :: trace_after_b)
  /\ Name spec_a = Name spec_b
  /\ Forall (fun ev => ~ found (Name spec_b) ev) trace_after_b
  /\ ({[ "dup" := IString "b" ]} : gmap string iface) !! Name spec_a = Some (IString "b").
Proof.
  assert (HD : Discover_stub [spec_a] [spec_flaky] [spec_b; spec_never]
    = (Returned ({[ "dup" := IString "b" ]}, None), 5,
       trace_before_a ++ EvDiscoverFeature spec_a (true, None)
         :: trace_between ++ EvDiscoverFeature spec_b (true, None) :: trace_after_b)).
  { vm_compute. reflexivity. }
  assert (Hlater : Forall (fun ev => ~ found (Name spec_b) ev) trace_after_b).
  { repeat constructor; intros []. }
  split; [exact HD|]. split; [reflexivity|]. split; [exact Hlater|].
  exact (Discover_last_wins [spec_a] (fun _ => [spec_b; spec_never]) [spec_flaky] 0 _ 5 _
           trace_before_a spec_a trace_between spec_b trace_after_b
           HD eq_refl eq_refl Hlater).
Defined.

Definition spec_lit : StubFeatureSpec := spec "lit" (Some "x") [rs_pci yes].

(** The trace of [spec_plain] built in, [spec_lit] configured and
    [spec_never] in the directory. *)
Definition trace_values : list StubEvent :=
  [ EvKlogDump [spec_plain; spec_lit; spec_never];
    EvDiscoverFeature spec_plain (true, None);
    EvMatch (RPciID yes) (true, None);
    EvDiscoverFeature spec_lit (true, None);
    EvMatch (RPciID no) (false, None);
    EvDiscoverFeature spec_never (false, None) ].

(** A specification without a value yields [true], one with a value yields
    the value, one that is not found yields nothing. *)
Lemma Discover_value_derivation_witness :
  (exists features w' t',
     Discover_loop [spec_never]
       (<[Name spec_lit := IString "x"]> {[ "plain" := IBool true ]}) 1
     = (features, w', t')
     /\ Discover_stub [spec_plain] [spec_lit] [spec_never]
        = (Returned (features, None), w',
           EvKlogDump ([spec_plain] ++ spec_lit :: [spec_never])
           :: [EvDiscoverFeature spec_plain (true, None)]
              ++ [EvMatch (RPciID yes) (true, None)]
              ++ EvDiscoverFeature spec_lit (true, None) :: t'))
  /\ exists features,
       (Discover_stub [spec_plain] [spec_lit] [spec_never]).1.1 = Returned (features, None)
       /\ features !! "plain" = Some (IBool true)
       /\ features !! "lit" = Some (IString "x")
       /\ features !! "never" = None.
Proof.
  destruct (Discover_value_derivation [spec_plain] (fun _ => [spec_never]) [spec_lit] 0)
    as (Hstep & features & w' & evs & HD & Hfound & Hnone).
  split.
  { assert (Hpre : Discover_loop [spec_plain] ∅ 0
                   = ({[ "plain" := IBool true ]}, 0,
                      [EvDiscoverFeature spec_plain (true, None)])).
    { vm_compute. reflexivity. }
    exact (Hstep [spec_plain] spec_lit [spec_never] _ 0 _ true 1
             [EvMatch (RPciID yes) (true, None)] eq_refl Hpre eq_refl). }
  assert (Hevs : evs = trace_values).
  { apply (f_equal snd) in HD. symmetry. exact HD. }
  subst evs. exists features. split.
  { apply (f_equal (fun x => x.1.1)) in HD. exact HD. }
  split; [|split].
  - apply (Hfound [EvKlogDump [spec_plain; spec_lit; spec_never]] spec_plain
             [ EvMatch (RPciID yes) (true, None);
               EvDiscoverFeature spec_lit (true, None);
               EvMatch (RPciID no) (false, None);
               EvDiscoverFeature spec_never (false, None) ]); [reflexivity|].
    repeat constructor; intros H; simpl in H; first [contradiction|discriminate].
  - apply (Hfound [ EvKlogDump [spec_plain; spec_lit; spec_never];
                    EvDiscoverFeature spec_plain (true, None);
                    EvMatch (RPciID yes) (true, None) ] spec_lit
             [ EvMatch (RPciID no) (false, None);
               EvDiscoverFeature spec_never (false, None) ]); [reflexivity|].
    repeat constructor; intros H; simpl in H; first [contradiction|discriminate].
  - apply Hnone.
    repeat constructor; intros H; simpl in H; first [contradiction|discriminate].
Defined.

(** ** The further properties at work on the stubs *)

Lemma discoverFeature_calls_configured_witness :
  In (EvMatch (RNodename broken) (false, Some "unreadable"))
     (discoverFeature
        (spec "f" None [rs_pci no; rs_pci_nodename yes broken; rs_pci yes]) 0).2
  /\ exists rs,
       In rs (MatchOn (spec "f" None [rs_pci no; rs_pci_nodename yes broken; rs_pci yes]))
       /\ In (Some (RNodename broken)) (allRules rs).
Proof.
  assert (Hin : In (EvMatch (RNodename broken) (false, Some "unreadable"))
     (discoverFeature
        (spec "f" None [rs_pci no; rs_pci_nodename yes broken; rs_pci yes]) 0).2).
  { right. right. left. reflexivity. }
  split; [exact Hin|].
  exact (discoverFeature_calls_configured
           (spec "f" None [rs_pci no; rs_pci_nodename yes broken; rs_pci yes])
           0 (RNodename broken) (false, Some "unreadable") Hin).
Defined.

(** [spec_a] built in, [spec_flaky] configured, [spec_b] and [spec_never]
    in the directory: the one entry comes from [spec_b]. *)
Lemma Discover_entries_from_config_witness :
  Discover_stub [spec_a] [spec_flaky] [spec_b; spec_never]
    = (Returned ({[ "dup" := IString "b" ]}, None), 5,
       trace_before_a ++ EvDiscoverFeature spec_a (true, None)
         :: trace_between ++ EvDiscoverFeature spec_b (true, None) :: trace_after_b)
  /\ ({[ "dup" := IString "b" ]} : gmap string iface) !! "dup" = Some (IString "b")
  /\ exists f,
       In f ([spec_a] ++ [spec_flaky] ++ [spec_b; spec_never])
       /\ Name f = "dup"
       /\ In (EvDiscoverFeature f (true, None))
            (trace_before_a ++ EvDiscoverFeature spec_a (true, None)
               :: trace_between ++ EvDiscoverFeature spec_b (true, None) :: trace_after_b)
       /\ IString "b" = match Value f with Some s => IString s | None => IBool true end.
Proof.
  assert (HD : Discover_stub [spec_a] [spec_flaky] [spec_b; spec_never]
    = (Returned ({[ "dup" := IString "b" ]}, None), 5,
       trace_before_a ++ EvDiscoverFeature spec_a (true, None)
         :: trace_between ++ EvDiscoverFeature spec_b (true, None) :: trace_after_b)).
  { vm_compute. reflexivity. }
  assert (Hv : ({[ "dup" := IString "b" ]} : gmap string iface) !! "dup"
               = Some (IString "b")).
  { vm_compute. reflexivity. }
  split; [exact HD|]. split; [exact Hv|].
  exact (Discover_entries_from_config [spec_a] (fun _ => [spec_b; spec_never])
           [spec_flaky] 0 _ None 5 _ "dup" (IString "b") HD Hv).
Defined.

(** Three specifications that bear distinct names. *)
Lemma Discover_distinct_names_witness :
  NoDup (Name <$> [spec_plain] ++ [spec_lit] ++ [spec_never])
  /\ Discover_stub [spec_plain] [spec_lit] [spec_never]
     = (Returned ({[ "plain" := IBool true; "lit" := IString "x" ]}, None),
        2, trace_values)
  /\ In spec_lit ([spec_plain] ++ [spec_lit] ++ [spec_never])
  /\ In (EvDiscoverFeature spec_lit (true, None)) trace_values
  /\ ({[ "plain" := IBool true; "lit" := IString "x" ]} : gmap string iface)
       !! Name spec_lit = Some (IString "x").
Proof.
  assert (Hnd : NoDup (Name <$> [spec_plain] ++ [spec_lit] ++ [spec_never])).
  { repeat constructor; intros Hin;
      repeat (apply elem_of_cons in Hin as [Hin|Hin]; [discriminate|]);
      apply elem_of_nil in Hin; exact Hin. }
  assert (HD : Discover_stub [spec_plain] [spec_lit] [spec_never]
               = (Returned ({[ "plain" := IBool true; "lit" := IString "x" ]}, None),
                  2, trace_values)).
  { vm_compute. reflexivity. }
  assert (Hf : In spec_lit ([spec_plain] ++ [spec_lit] ++ [spec_never])).
  { right. left. reflexivity. }
  assert (Hfound : In (EvDiscoverFeature spec_lit (true, None)) trace_values).
  { right. right. right. left. reflexivity. }
  split; [exact Hnd|]. split; [exact HD|]. split; [exact Hf|]. split; [exact Hfound|].
  exact (proj1 (Discover_distinct_names [spec_plain] (fun _ => [spec_never]) [spec_lit]
                  0 _ None 2 trace_values spec_lit Hnd HD Hf) Hfound).
Defined.

(** ** Probes

    Rules that look a name up on a host given as the list of the names it
    has, and leave it as it is. *)

Record ProbeRule : Type := { wanted : string }.

#[export] Instance ProbeRule_Rule : @Rule (list string) string ProbeRule :=
  fun r host => ((bool_decide (wanted r ∈ host), None), host).

Definition ProbeMatchRule : Type :=
  @MatchRule ProbeRule ProbeRule ProbeRule ProbeRule ProbeRule ProbeRule.
Definition ProbeFeatureSpec : Type :=
  @FeatureSpec ProbeRule ProbeRule ProbeRule ProbeRule ProbeRule ProbeRule.

(** A rule-set asking for a kernel module and a node name. *)
Definition rs_kmod_node (kmod node : string) : ProbeMatchRule :=
  {| PciID := None; UsbID := None; LoadedKMod := Some {| wanted := kmod |};
     CpuID := None; Kconfig := None; Nodename := Some {| wanted := node |} |}.

(** A rule-set asking for a kernel module. *)
Definition rs_kmod (kmod : string) : ProbeMatchRule :=
  {| PciID := None; UsbID := None; LoadedKMod := Some {| wanted := kmod |};
     CpuID := None; Kconfig := None; Nodename := None |}.

Definition spec_rdma : ProbeFeatureSpec :=
  {| Name := "rdma"; Value := None;
     MatchOn := [rs_kmod_node "ib_core" "worker-0"; rs_kmod "rdma_cm"] |}.
Definition spec_gpu : ProbeFeatureSpec :=
  {| Name := "gpu"; Value := Some "nvidia"; MatchOn := [rs_kmod "nvidia"] |}.

Definition host : list string := ["rdma_cm"; "worker-1"].

Lemma probes_read_only :
  @read_only (list string) string ProbeRule ProbeRule ProbeRule ProbeRule ProbeRule
    ProbeRule _ _ _ _ _ _.
Proof. intros [r|r|r|r|r|r] w; reflexivity. Defined.

(** A host with the module of the first rule-set but another node name,
    and without the module of the second. *)
Definition host_other_node : list string := ["ib_core"; "worker-1"].

Lemma discoverFeature_read_only_dnf_witness :
  (forall rs rule,
     In rs (MatchOn spec_rdma) ->
     In (Some rule)
        [ RPciID <$> PciID rs; RUsbID <$> UsbID rs; RLoadedKMod <$> LoadedKMod rs;
          RCpuID <$> CpuID rs; RKconfig <$> Kconfig rs; RNodename <$> Nodename rs ] ->
     (rule_Match rule host_other_node).1.2 = None)
  /\ (discoverFeature spec_rdma host_other_node).1.1 = (false, None)
  /\ (discoverFeature spec_rdma host).1.1 = (true, None).
Proof.
  assert (Hok : forall w rs rule,
     In rs (MatchOn spec_rdma) ->
     In (Some rule)
        [ RPciID <$> PciID rs; RUsbID <$> UsbID rs; RLoadedKMod <$> LoadedKMod rs;
          RCpuID <$> CpuID rs; RKconfig <$> Kconfig rs; RNodename <$> Nodename rs ] ->
     (rule_Match rule w).1.2 = None).
  { intros w rs [r|r|r|r|r|r] _ _; reflexivity. }
  split; [exact (Hok host_other_node)|]. split.
  - rewrite (discoverFeature_read_only_dnf spec_rdma host_other_node
               probes_read_only (Hok host_other_node)).
    reflexivity.
  - rewrite (discoverFeature_read_only_dnf spec_rdma host probes_read_only (Hok host)).
    reflexivity.
Defined.

Lemma Discover_read_only_witness :
  (Discover [spec_rdma] (fun _ => []) {| config := Some [spec_gpu] |} host).1
  = (Returned
       (foldl (fun m f =>
                 match (discoverFeature f host).1.1 with
                 | (true, None) =>
                     <[Name f := match Value f with Some v => IString v | None => IBool true end]> m
                 | _ => m
                 end) ∅ ([spec_rdma] ++ [spec_gpu] ++ []),
        None), host)
  /\ (Discover [spec_rdma] (fun _ => []) {| config := Some [spec_gpu] |} host).1
     = (Returned ({[ "rdma" := IBool true ]}, None), host).
Proof.
  split; [|vm_compute; reflexivity].
  exact (Discover_read_only [spec_rdma] (fun _ => []) [spec_gpu] host probes_read_only).
Defined.

(** * The fake feature source

    The package [fake]: a source that reports the labels of its
    configuration as features. *)
Module fake.

Section fake.

(** Go's [error] values, and the configurations of other dynamic types. *)
Context {error OtherConfig : Type}.

Record Config : Type := { Labels : gmap string string }.

(** [newDefaultConfig]: three features, each with the string ["true"]. *)
Definition newDefaultConfig : Config :=
  {| Labels := {[ "fakefeature1" := "true";
                  "fakefeature2" := "true";
                  "fakefeature3" := "true" ]} |}.

(** [Source] holds a pointer to its configuration, nil until it is set. *)
Record Source : Type := { config : option Config }.

Inductive source_Config : Type :=
| ConfigPtr (v : option Config)
| ConfigOther (v : OtherConfig).

Definition NewConfig (s : Source) : source_Config := ConfigPtr (Some newDefaultConfig).

Definition GetConfig (s : Source) : source_Config := ConfigPtr (config s).

(** [SetConfig] stores a [*Config] and panics on any other dynamic type. *)
Definition SetConfig (s : Source) (conf : source_Config) : outcome Source :=
  match conf with
  | ConfigPtr v => Returned {| config := v |}
  | ConfigOther _ => Panicked
  end.

(** The loop [for k, v := range s.config.Labels], over the entries in the
    order the run-time happens to visit them. *)
Definition range_Labels (visited : list (string * string))
    (features : gmap string iface) : gmap string iface :=
  foldl (fun fs kv => <[kv.1 := IString kv.2]> fs) features visited.

(** [Discover]; [visited] is the order in which [range] goes through the
    labels, which Go leaves open. Reading the labels of a nil configuration
    panics. *)
Definition Discover (s : Source) (visited : list (string * string))
    : outcome (gmap string iface * option error) :=
  match config s with
  | None => Panicked
  | Some c => Returned (range_Labels visited ∅, None)
  end.

(** The map after the loop: the visited labels, over what it held. *)
Lemma range_Labels_lookup visited features k :
  NoDup visited.*1 ->
  range_Labels visited features !! k =
    match (list_to_map visited : gmap string string) !! k with
    | Some v => Some (IString v)
    | None => features !! k
    end.
Proof.
  revert features. induction visited as [|[k0 v0] visited IH]; intros features Hnd.
  - reflexivity.
  - rewrite fmap_cons in Hnd. apply NoDup_cons in Hnd as [Hk0 Hnd].
    change (range_Labels ((k0, v0) :: visited) features)
      with (range_Labels visited (<[k0 := IString v0]> features)).
    rewrite (IH _ Hnd).
    change (list_to_map ((k0, v0) :: visited) : gmap string string)
      with (<[k0 := v0]> (list_to_map visited : gmap string string)).
    destruct (decide (k0 = k)) as [<-|Hne].
    + cbn [fst] in Hk0. rewrite (not_elem_of_list_to_map_1 _ _ Hk0).
      rewrite !lookup_insert_eq. reflexivity.
    + rewrite (lookup_insert_ne (list_to_map visited) _ _ _ Hne).
      destruct (list_to_map visited !! k); [reflexivity|].
      apply lookup_insert_ne. exact Hne.
Qed.

(** The loop from the empty map, over the labels of a map in any order. *)
Lemma range_Labels_all (labels : gmap string string) visited :
  visited ≡ₚ map_to_list labels ->
  range_Labels visited ∅ = IString <$> labels.
Proof.
  intros Hperm.
  assert (Hnd : NoDup visited.*1).
  { rewrite Hperm. apply NoDup_fst_map_to_list. }
  apply map_eq. intros k. rewrite (range_Labels_lookup _ _ _ Hnd), lookup_fmap.
  rewrite (list_to_map_proper _ _ Hnd Hperm), list_to_map_to_list, lookup_empty.
  destruct (labels !! k); reflexivity.
Qed.

(** X11. Whatever the order in which the labels are visited, [Discover] returns,
    with a nil error, a map with exactly the configured labels, each
    holding its configured string. *)
Theorem Discover_copies_labels c visited :
  visited ≡ₚ map_to_list (Labels c) ->
  Discover {| config := Some c |} visited = Returned (IString <$> Labels c, None).
Proof.
  intros Hperm. unfold Discover. cbn [config].
  rewrite (range_Labels_all _ _ Hperm). reflexivity.
Qed.

(** X12. Whatever configuration a source held, once it is given the default one
    it reports it back, and [Discover] returns the three fake features, each
    holding the string ["true"], in whatever order the labels are visited. *)
Theorem Discover_default_features s visited :
  visited ≡ₚ map_to_list (Labels newDefaultConfig) ->
  exists s',
    SetConfig s (NewConfig s) = Returned s'
    /\ GetConfig s' = NewConfig s
    /\ Discover s' visited
       = Returned ({[ "fakefeature1" := IString "true";
                      "fakefeature2" := IString "true";
                      "fakefeature3" := IString "true" ]}, None).
Proof.
  intros Hperm. exists {| config := Some newDefaultConfig |}.
  split; [reflexivity|]. split; [reflexivity|].
  unfold Discover. cbn [config].
  rewrite (range_Labels_all _ _ Hperm). vm_compute. reflexivity.
Qed.

End fake.

(** The default configuration, visited in some order. *)
Lemma Discover_copies_labels_witness :
  [("fakefeature2", "true"); ("fakefeature3", "true"); ("fakefeature1", "true")]
    ≡ₚ map_to_list (Labels newDefaultConfig)
  /\ Discover (error := string) {| config := Some newDefaultConfig |}
       [("fakefeature2", "true"); ("fakefeature3", "true"); ("fakefeature1", "true")]
     = Returned (IString <$> Labels newDefaultConfig, None).
Proof.
  assert (Hperm :
    [("fakefeature2", "true"); ("fakefeature3", "true"); ("fakefeature1", "true")]
      ≡ₚ map_to_list (Labels newDefaultConfig)).
  { apply (bool_decide_unpack _). vm_compute. exact I. }
  split; [exact Hperm|].
  exact (Discover_copies_labels newDefaultConfig _ Hperm).
Defined.

Lemma Discover_default_features_witness :
  [("fakefeature3", "true"); ("fakefeature1", "true"); ("fakefeature2", "true")]
    ≡ₚ map_to_list (Labels newDefaultConfig)
  /\ exists s',
       SetConfig (OtherConfig := unit) {| config := None |} (NewConfig {| config := None |})
       = Returned s'
       /\ GetConfig (OtherConfig := unit) s' = NewConfig {| config := None |}
       /\ Discover (error := string) s'
            [("fakefeature3", "true"); ("fakefeature1", "true"); ("fakefeature2", "true")]
          = Returned ({[ "fakefeature1" := IString "true";
                         "fakefeature2" := IString "true";
                         "fakefeature3" := IString "true" ]}, None).
Proof.
  assert (Hperm :
    [("fakefeature3", "true"); ("fakefeature1", "true"); ("fakefeature2", "true")]
      ≡ₚ map_to_list (Labels newDefaultConfig)).
  { apply (bool_decide_unpack _). vm_compute. exact I. }
  split; [exact Hperm|].
  exact (Discover_default_features {| config := None |} _ Hperm).
Defined.

End fake.
